(** * BenchRHH: the Robin Hood table of [benchmark_rhh.cpp]

    A shallow embedding of [struct Bucket] and [class BenchRHH]
    (constructor, [insert], [find], [hash]) followed by the properties
    of the table: the probe-sequence-length invariant, lookups after
    insertions, duplicate insertion, saturation, and the size counter.

    Machine integers are modelled as [Z] with the wrap-around written
    out: [uint64_t]/[size_t] values live in [0, 2^64), the [int16_t]
    field [psl] and the probe distance [d] of [find] live in
    [-2^15, 2^15).  The slot array is a [list Bucket] read and written by
    index.  [BenchRHH_new] is the object built around a block that
    [calloc] returned; [BenchRHH_ctor] is the constructor with either
    answer of [calloc]. *)

From Stdlib Require Import ZArith Lia Bool List.
From stdpp Require Import base list gmap.

Local Open Scope Z_scope.

(* ===================================================================== *)
(** ** Machine arithmetic                                                 *)
(* ===================================================================== *)

Definition two64 : Z := 2 ^ 64.

(** Reduction of an integer to [uint64_t] / [size_t]. *)
Definition wrap64 (z : Z) : Z := z mod two64.

(** Reduction of an integer to [int16_t] (two's complement). *)
Definition wrap16 (z : Z) : Z := (z + 2 ^ 15) mod 2 ^ 16 - 2 ^ 15.

(* ===================================================================== *)
(** ** The data model                                                     *)
(* ===================================================================== *)

(** [struct Bucket { uint64_t key; uint64_t value; int16_t psl; bool occupied; }] *)
Record Bucket : Type := mkBucket {
  key : Z;
  value : Z;
  psl : Z;
  occupied : bool
}.

(** A bucket of the zeroed block that [calloc] returns. *)
Definition zero_bucket : Bucket := mkBucket 0 0 0 false.

(** [class BenchRHH { Bucket* table_; size_t cap_; size_t mask_; size_t size_; }] *)
Record BenchRHH : Type := mkRHH {
  table_ : list Bucket;
  cap_ : Z;
  mask_ : Z;
  size_ : Z
}.

(** [static inline uint64_t hash(uint64_t k)]:
    [k ^= k >> 33; k *= 0xff51afd7ed558ccd; k ^= k >> 33; return k;] *)
Definition hash_mult : Z := 0xff51afd7ed558ccd.

Definition xorshift33 (k : Z) : Z := Z.lxor k (Z.shiftr k 33).

Definition hash (k : Z) : Z :=
  let k1 := xorshift33 k in
  let k2 := wrap64 (k1 * hash_mult) in
  xorshift33 k2.

(** [explicit BenchRHH(size_t c)] when [calloc] hands back a block:
    [cap_ = c; mask_ = cap_ - 1; table_ = calloc(cap_, sizeof(Bucket))],
    with [size_ = 0] from the member initialiser.  No check of [c] is
    made. *)
Definition BenchRHH_new (c : Z) : BenchRHH :=
  {| table_ := replicate (Z.to_nat c) zero_bucket;
     cap_ := c;
     mask_ := wrap64 (c - 1);
     size_ := 0 |}.

(** [sizeof(Bucket)]: two 8-byte words, the 2-byte psl and the flag,
    padded to the 8-byte alignment. *)
Definition sizeof_Bucket : Z := 24.

(** [calloc(n, sizeof(Bucket))].  Whether the allocator serves a request
    is not decided by the program: [grant] is its answer.  A request
    whose byte count does not fit [size_t] is refused in any case.
    [None] is the null pointer; a block comes zeroed. *)
Definition calloc_Bucket (grant : bool) (n : Z) : option (list Bucket) :=
  if grant && (n * sizeof_Bucket <? two64)
  then Some (replicate (Z.to_nat n) zero_bucket)
  else None.

(** [explicit BenchRHH(size_t c)] as written: the result of [calloc] goes
    into [table_] unchecked.  A null [table_] has no slot that can be read
    or written; it is the array without slots, on which every access is
    out of bounds. *)
Definition BenchRHH_ctor (grant : bool) (c : Z) : BenchRHH :=
  {| table_ := match calloc_Bucket grant c with
               | Some block => block
               | None => []
               end;
     cap_ := c;
     mask_ := wrap64 (c - 1);
     size_ := 0 |}.

(** [table_[idx] = b] *)
Definition store (t : BenchRHH) (idx : Z) (b : Bucket) : BenchRHH :=
  {| table_ := <[Z.to_nat idx := b]> (table_ t);
     cap_ := cap_ t; mask_ := mask_ t; size_ := size_ t |}.

(** [size_++] *)
Definition incr_size (t : BenchRHH) : BenchRHH :=
  {| table_ := table_ t; cap_ := cap_ t; mask_ := mask_ t;
     size_ := wrap64 (size_ t + 1) |}.

(** [curr.psl++] on the carried record. *)
Definition bump (b : Bucket) : Bucket :=
  mkBucket (key b) (value b) (wrap16 (psl b + 1)) (occupied b).

(** [idx = (idx + 1) & mask_] *)
Definition next_idx (idx mask : Z) : Z := Z.land (wrap64 (idx + 1)) mask.

(** The way a call of [insert] leaves its body.  [insert] returns [void]:
    the caller sees none of this; it is kept beside the state so that
    properties can refer to the path taken.  [BadIndex] stands for a read
    outside the slot array (undefined behaviour in the source). *)
Inductive insert_exit : Type :=
  | ReturnPlaced      (* line 61-64: empty slot, [entry = curr; size_++; return] *)
  | ReturnDuplicate   (* line 66: [if (entry.key == k) return] *)
  | LoopExhausted     (* the [for] loop ran [cap_] probes and fell through *)
  | BadIndex.

(** The [for (probes = 0; probes < cap_; ++probes)] loop of [insert];
    [n] is the number of probes still allowed, [cap_ - probes]. *)
Fixpoint insert_loop (n : nat) (k : Z) (curr : Bucket) (idx : Z) (t : BenchRHH)
  : insert_exit * BenchRHH :=
  match n with
  | O => (LoopExhausted, t)
  | S n' =>
    match table_ t !! Z.to_nat idx with
    | None => (BadIndex, t)
    | Some entry =>
      if negb (occupied entry) then
        (ReturnPlaced, incr_size (store t idx curr))
      else if key entry =? k then
        (ReturnDuplicate, t)
      else if psl entry <? psl curr then
        (* [curr.psl > entry.psl]: [std::swap(curr, entry)] *)
        insert_loop n' k (bump entry) (next_idx idx (mask_ t)) (store t idx curr)
      else
        insert_loop n' k (bump curr) (next_idx idx (mask_ t)) t
    end
  end.

(** [void insert(uint64_t k, uint64_t v)] with the exit taken. *)
Definition insert_run (k v : Z) (t : BenchRHH) : insert_exit * BenchRHH :=
  insert_loop (Z.to_nat (cap_ t)) k (mkBucket k v 0 true)
              (Z.land (hash k) (mask_ t)) t.

(** The table after [insert(k, v)]. *)
Definition insert (k v : Z) (t : BenchRHH) : BenchRHH := snd (insert_run k v t).

Definition insert_exit_of (k v : Z) (t : BenchRHH) : insert_exit :=
  fst (insert_run k v t).

(** Result of running the [while (true)] loop of [find] with a bound on
    the number of slot probes. *)
Inductive find_result : Type :=
  | Found (v : Z)     (* [v = entry.value; return true] *)
  | NotFound          (* [return false] *)
  | FindBadIndex      (* read outside the slot array *)
  | OutOfFuel.        (* the loop did not return within the allowed probes *)

(** The loop of [find]; each iteration probes one slot and uses one unit
    of [fuel]. *)
Fixpoint find_loop (fuel : nat) (t : BenchRHH) (k idx d : Z) : find_result :=
  match fuel with
  | O => OutOfFuel
  | S fuel' =>
    match table_ t !! Z.to_nat idx with
    | None => FindBadIndex
    | Some entry =>
      if negb (occupied entry) || (psl entry <? d) then NotFound
      else if key entry =? k then Found (value entry)
      else find_loop fuel' t k (next_idx idx (mask_ t)) (wrap16 (d + 1))
    end
  end.

(** [bool find(uint64_t k, uint64_t& v) const], allowing [fuel] probes. *)
Definition find (fuel : nat) (t : BenchRHH) (k : Z) : find_result :=
  find_loop fuel t k (Z.land (hash k) (mask_ t)) 0.

(** Inserting a sequence of pairs, in order. *)
Definition insert_all (kvs : list (Z * Z)) (t : BenchRHH) : BenchRHH :=
  fold_left (fun acc kv => insert (fst kv) (snd kv) acc) kvs t.

(* ===================================================================== *)
(** ** Arithmetic of masks, displacements and the 16-bit counter          *)
(* ===================================================================== *)

Lemma land_pow2_mask (x m : Z) : 0 <= m -> Z.land x (2 ^ m - 1) = x mod 2 ^ m.
Proof.
  intros Hm. rewrite <- Z.land_ones by assumption.
  now rewrite Z.ones_equiv, <- Z.sub_1_r.
Qed.

Lemma land_bounds (a b : Z) : 0 <= b -> 0 <= Z.land a b <= b.
Proof.
  intros Hb. split.
  - apply Z.land_nonneg. now right.
  - pose proof (Z.lor_ldiff_and b a) as E.
    pose proof (Z.add_lor_land (Z.ldiff b a) (Z.land b a)) as S.
    rewrite E in S.
    assert (Z.land (Z.ldiff b a) (Z.land b a) = 0).
    { apply Z.bits_inj'. intros n Hn. rewrite !Z.land_spec, Z.ldiff_spec, Z.bits_0.
      destruct (Z.testbit b n), (Z.testbit a n); reflexivity. }
    assert (0 <= Z.ldiff b a) by (apply Z.ldiff_nonneg; now left).
    rewrite (Z.land_comm a b). lia.
Qed.

Lemma pow2_pos (m : Z) : 0 <= m -> 0 < 2 ^ m.
Proof. intros. apply Z.pow_pos_nonneg; lia. Qed.

Lemma pow2_lt_two64 (m : Z) : 0 <= m < 64 -> 2 ^ m < two64.
Proof. intros. unfold two64. apply Z.pow_lt_mono_r; lia. Qed.

Lemma wrap64_small (z : Z) : 0 <= z < two64 -> wrap64 z = z.
Proof. intros. unfold wrap64. now apply Z.mod_small. Qed.

Lemma next_idx_pow2 (idx m : Z) :
  0 <= m < 64 -> 0 <= idx < 2 ^ m ->
  next_idx idx (2 ^ m - 1) = (idx + 1) mod 2 ^ m.
Proof.
  intros Hm Hi. unfold next_idx.
  pose proof (pow2_lt_two64 m Hm).
  rewrite wrap64_small by lia.
  apply land_pow2_mask. lia.
Qed.

Lemma wrap16_small (z : Z) : - 2 ^ 15 <= z < 2 ^ 15 -> wrap16 z = z.
Proof. intros. unfold wrap16. rewrite Z.mod_small; lia. Qed.

Lemma wrap16_range (z : Z) : - 2 ^ 15 <= wrap16 z < 2 ^ 15.
Proof.
  unfold wrap16. pose proof (Z.mod_pos_bound (z + 2 ^ 15) (2 ^ 16)). lia.
Qed.

Lemma wrap16_succ (z : Z) : wrap16 (wrap16 z + 1) = wrap16 (z + 1).
Proof.
  unfold wrap16.
  replace ((z + 2 ^ 15) mod 2 ^ 16 - 2 ^ 15 + 1 + 2 ^ 15)
    with ((z + 2 ^ 15) mod 2 ^ 16 + 1) by lia.
  rewrite Zplus_mod_idemp_l. f_equal. f_equal. lia.
Qed.

(** When [2^16] divides the capacity, reducing modulo the capacity does
    not change the 16-bit value. *)
Lemma wrap16_mod_pow2 (z m : Z) : 16 <= m -> wrap16 (z mod 2 ^ m) = wrap16 z.
Proof.
  intros Hm. unfold wrap16. f_equal.
  assert (Hd : (2 ^ 16 | 2 ^ m)).
  { exists (2 ^ (m - 16)). rewrite <- Z.pow_add_r by lia. f_equal. lia. }
  rewrite <- (Zplus_mod_idemp_l (z mod 2 ^ m)).
  rewrite (Z.mod_mod_divide z (2 ^ m) (2 ^ 16) Hd).
  now rewrite Zplus_mod_idemp_l.
Qed.

Lemma disp_range (c s i : Z) : 0 < c -> 0 <= (s - i) mod c < c.
Proof. intros. apply Z.mod_pos_bound; lia. Qed.

(** Walking the displacement from the ideal slot comes back to the slot. *)
Lemma disp_walk (c s i : Z) : 0 <= s < c -> (i + (s - i) mod c) mod c = s.
Proof.
  intros Hs. rewrite Zplus_mod_idemp_r.
  replace (i + (s - i)) with s by lia. now apply Z.mod_small.
Qed.

(** The slot at offset [j] from [i] has displacement [j]. *)
Lemma disp_of_walk (c i j : Z) : 0 <= j < c -> ((i + j) mod c - i) mod c = j.
Proof.
  intros Hj. rewrite Zminus_mod_idemp_l.
  replace (i + j - i) with j by lia. now apply Z.mod_small.
Qed.

Lemma disp_next (c s i : Z) : ((s + 1) mod c - i) mod c = ((s - i) mod c + 1) mod c.
Proof.
  rewrite Zminus_mod_idemp_l, Zplus_mod_idemp_l. f_equal. lia.
Qed.

Lemma walk_next (c i j : Z) : ((i + j) mod c + 1) mod c = (i + (j + 1)) mod c.
Proof. rewrite Zplus_mod_idemp_l. f_equal. lia. Qed.

(** Two offsets below the capacity that reach the same slot are equal. *)
Lemma walk_inj (c i j j' : Z) :
  0 <= j < c -> 0 <= j' < c -> (i + j) mod c = (i + j') mod c -> j = j'.
Proof.
  intros Hj Hj' E.
  rewrite <- (disp_of_walk c i j Hj), <- (disp_of_walk c i j' Hj'). now rewrite E.
Qed.

(* ===================================================================== *)
(** ** Slots, ideal positions and the table invariants                    *)
(* ===================================================================== *)

(** [table_[i]] *)
Definition slot (t : BenchRHH) (i : Z) : option Bucket := table_ t !! Z.to_nat i.

(** [hash(k) & mask_], the slot where the probe sequence of [k] starts. *)
Definition ideal (t : BenchRHH) (k : Z) : Z := Z.land (hash k) (mask_ t).

(** Distance from the ideal slot of [k] to slot [i], going forward. *)
Definition displacement (t : BenchRHH) (i k : Z) : Z := (i - ideal t k) mod cap_ t.

(** A table built for capacity [2^m]: the fields agree and the array has
    [2^m] slots. *)
Definition well_formed (m : Z) (t : BenchRHH) : Prop :=
  0 <= m < 64 /\ cap_ t = 2 ^ m /\ mask_ t = 2 ^ m - 1 /\
  length (table_ t) = Z.to_nat (2 ^ m).

(** Some occupied slot holds key [k] with value [v]. *)
Definition stored (t : BenchRHH) (k v : Z) : Prop :=
  exists i b, 0 <= i /\ slot t i = Some b /\ occupied b = true /\ key b = k /\ value b = v.

Definition present (t : BenchRHH) (k : Z) : Prop := exists v, stored t k v.

(** No occupied slot holds key [k]. *)
Definition absent (t : BenchRHH) (k : Z) : Prop :=
  forall i b, 0 <= i -> slot t i = Some b -> occupied b = true -> key b <> k.

(** The first [D] slots of the probe sequence of [k] are occupied by other
    keys whose stored psl is not below the probe distance: neither [find]
    nor [insert] stops or swaps there. *)
Definition path_ok (t : BenchRHH) (k D : Z) : Prop :=
  forall j, 0 <= j < D ->
    exists b, slot t ((ideal t k + j) mod cap_ t) = Some b /\
              occupied b = true /\ key b <> k /\ wrap16 j <= psl b.

(** The Robin Hood invariant: every resident carries its displacement
    (as a 16-bit value) and is reachable along its probe sequence. *)
Definition robin_hood (t : BenchRHH) : Prop :=
  forall i b, 0 <= i -> slot t i = Some b -> occupied b = true ->
    psl b = wrap16 (displacement t i (key b)) /\
    path_ok t (key b) (displacement t i (key b)).

(** Number of occupied slots. *)
Definition occupied_count (t : BenchRHH) : Z :=
  Z.of_nat (length (List.filter occupied (table_ t))).

(** The key/value pairs held by the occupied slots, in slot order. *)
Definition pairs (t : BenchRHH) : list (Z * Z) :=
  List.map (fun b => (key b, value b)) (List.filter occupied (table_ t)).

(** States reached from a fresh table of capacity [c] by calls of [insert]. *)
Inductive reachable (c : Z) : BenchRHH -> Prop :=
  | reach_new : reachable c (BenchRHH_new c)
  | reach_insert t k v : reachable c t -> reachable c (insert k v t).

Section WellFormed.
Variables (m : Z) (t : BenchRHH).
Hypothesis WF : well_formed m t.

Lemma wf_cap_pos : 0 < cap_ t.
Proof. destruct WF as (Hm & -> & _). apply pow2_pos; lia. Qed.

Lemma wf_ideal (k : Z) : ideal t k = hash k mod cap_ t.
Proof.
  destruct WF as (Hm & Hc & Hk & _). unfold ideal.
  rewrite Hk, Hc. apply land_pow2_mask; lia.
Qed.

Lemma wf_ideal_range (k : Z) : 0 <= ideal t k < cap_ t.
Proof. rewrite wf_ideal. apply Z.mod_pos_bound, wf_cap_pos. Qed.

Lemma wf_next (idx : Z) :
  0 <= idx < cap_ t -> next_idx idx (mask_ t) = (idx + 1) mod cap_ t.
Proof.
  destruct WF as (Hm & Hc & Hk & _). intros Hi.
  rewrite Hk, Hc. apply next_idx_pow2; [assumption | now rewrite <- Hc].
Qed.

Lemma wf_slot_some (i : Z) : 0 <= i < cap_ t -> exists b, slot t i = Some b.
Proof.
  destruct WF as (Hm & Hc & _ & Hl). intros Hi. unfold slot.
  destruct (lookup_lt_is_Some_2 (table_ t) (Z.to_nat i)) as [b Hb]; [| eauto].
  rewrite Hl, <- Hc. lia.
Qed.

Lemma wf_slot_range (i : Z) (b : Bucket) : 0 <= i -> slot t i = Some b -> i < cap_ t.
Proof.
  destruct WF as (Hm & Hc & _ & Hl). intros Hi Hs.
  apply lookup_lt_Some in Hs. rewrite Hl, <- Hc in Hs. lia.
Qed.

Lemma wf_store (i : Z) (b : Bucket) : well_formed m (store t i b).
Proof.
  destruct WF as (Hm & Hc & Hk & Hl). unfold well_formed; simpl.
  now rewrite length_insert.
Qed.

Lemma wf_incr_size : well_formed m (incr_size t).
Proof. exact WF. Qed.

Lemma slot_store_eq (i : Z) (b : Bucket) :
  0 <= i < cap_ t -> slot (store t i b) i = Some b.
Proof.
  destruct WF as (Hm & Hc & _ & Hl). intros Hi. unfold slot; simpl.
  apply list_lookup_insert_eq. rewrite Hl, <- Hc. lia.
Qed.
End WellFormed.

Lemma slot_store_ne (t : BenchRHH) (i j : Z) (b : Bucket) :
  0 <= i -> 0 <= j -> i <> j -> slot (store t i b) j = slot t j.
Proof.
  intros Hi Hj Hne. unfold slot; simpl. apply list_lookup_insert_ne. lia.
Qed.

Lemma slot_incr_size (t : BenchRHH) (i : Z) : slot (incr_size t) i = slot t i.
Proof. reflexivity. Qed.

Lemma wf_new (m : Z) : 0 <= m < 64 -> well_formed m (BenchRHH_new (2 ^ m)).
Proof.
  intros Hm. unfold well_formed, BenchRHH_new; simpl.
  pose proof (pow2_pos m ltac:(lia)). pose proof (pow2_lt_two64 m Hm).
  repeat split; try lia.
  - apply wrap64_small. lia.
  - apply length_replicate.
Qed.

(* ===================================================================== *)
(** ** Structural facts about the loop of [insert]                        *)
(* ===================================================================== *)

Lemma insert_loop_fields (n : nat) : forall k curr idx t,
  let r := snd (insert_loop n k curr idx t) in
  cap_ r = cap_ t /\ mask_ r = mask_ t /\ length (table_ r) = length (table_ t).
Proof.
  induction n as [| n IH]; intros k curr idx t; cbn [insert_loop].
  - simpl. auto.
  - destruct (table_ t !! Z.to_nat idx) as [entry |]; [| simpl; auto].
    destruct (negb (occupied entry)).
    { simpl. rewrite length_insert. auto. }
    destruct (key entry =? k); [simpl; auto |].
    destruct (psl entry <? psl curr).
    + specialize (IH k (bump entry) (next_idx idx (mask_ t)) (store t idx curr)).
      simpl in IH. rewrite length_insert in IH. exact IH.
    + apply IH.
Qed.

Lemma insert_loop_wf (m : Z) (n : nat) k curr idx t :
  well_formed m t -> well_formed m (snd (insert_loop n k curr idx t)).
Proof.
  intros (Hm & Hc & Hk & Hl).
  destruct (insert_loop_fields n k curr idx t) as (E1 & E2 & E3).
  unfold well_formed. rewrite E1, E2, E3. auto.
Qed.

Lemma insert_wf (m : Z) k v t : well_formed m t -> well_formed m (insert k v t).
Proof. apply insert_loop_wf. Qed.

Lemma reachable_wf (m : Z) (t : BenchRHH) :
  0 <= m < 64 -> reachable (2 ^ m) t -> well_formed m t.
Proof.
  intros Hm R. induction R as [| t k v R IH].
  - now apply wf_new.
  - now apply insert_wf.
Qed.

(* ===================================================================== *)
(** ** The Robin Hood invariant is kept by [insert]                       *)
(* ===================================================================== *)

(** The record carried by the loop, about to probe slot [idx]. *)
Definition carried_ok (t : BenchRHH) (curr : Bucket) (idx : Z) : Prop :=
  occupied curr = true /\
  psl curr = wrap16 (displacement t idx (key curr)) /\
  path_ok t (key curr) (displacement t idx (key curr)) /\
  absent t (key curr).

(** Why the carried psl stays faithful: either [2^16] divides the capacity,
    or the psl is a plain count that the remaining probes cannot push to
    the capacity. *)
Definition budget_ok (m : Z) (n : nat) (curr : Bucket) : Prop :=
  16 <= m \/ (0 <= psl curr /\ psl curr + Z.of_nat n <= 2 ^ m).

Section Invariant.
Variable m : Z.

Lemma robin_hood_unique (t : BenchRHH) (i i' : Z) (b b' : Bucket) :
  well_formed m t -> robin_hood t ->
  0 <= i -> 0 <= i' ->
  slot t i = Some b -> slot t i' = Some b' ->
  occupied b = true -> occupied b' = true ->
  key b = key b' -> i = i'.
Proof.
  intros WF RH Hi Hi' Hs Hs' Ho Ho' Hk.
  pose proof (wf_cap_pos m t WF) as Hc.
  pose proof (wf_slot_range m t WF i b Hi Hs) as Hr.
  pose proof (wf_slot_range m t WF i' b' Hi' Hs') as Hr'.
  destruct (RH i b Hi Hs Ho) as [_ P].
  destruct (RH i' b' Hi' Hs' Ho') as [_ P'].
  unfold displacement in *. rewrite <- Hk in P'.
  pose (h := ideal t (key b)). fold h in P, P'.
  pose proof (disp_range (cap_ t) i h Hc) as R1.
  pose proof (disp_range (cap_ t) i' h Hc) as R2.
  pose proof (disp_walk (cap_ t) i h ltac:(lia)) as W1.
  pose proof (disp_walk (cap_ t) i' h ltac:(lia)) as W2.
  destruct (Z.lt_trichotomy ((i - h) mod cap_ t) ((i' - h) mod cap_ t)) as [L | [E | L]].
  - destruct (P' ((i - h) mod cap_ t) ltac:(lia)) as (x & Hx & _ & Hne & _).
    fold h in Hx. rewrite W1, Hs in Hx. inversion Hx; subst x. congruence.
  - rewrite <- W1, <- W2, E. reflexivity.
  - destruct (P ((i' - h) mod cap_ t) ltac:(lia)) as (x & Hx & _ & Hne & _).
    fold h in Hx. rewrite W2, Hs' in Hx. inversion Hx; subst x. congruence.
Qed.

(** Writing [c] into slot [idx] keeps a probe path valid when [c] is at
    least as good a witness as the bucket it replaces. *)
Lemma path_ok_store (t : BenchRHH) (idx : Z) (c : Bucket) (k D : Z) :
  well_formed m t -> 0 <= idx < cap_ t ->
  path_ok t k D ->
  (forall j b, 0 <= j < D -> (ideal t k + j) mod cap_ t = idx ->
     slot t idx = Some b -> occupied b = true -> key b <> k -> wrap16 j <= psl b ->
     occupied c = true /\ key c <> k /\ wrap16 j <= psl c) ->
  path_ok (store t idx c) k D.
Proof.
  intros WF Hi P Hrep j Hj.
  destruct (P j Hj) as (b & Hs & Ho & Hne & Hp).
  change (ideal (store t idx c) k) with (ideal t k).
  change (cap_ (store t idx c)) with (cap_ t).
  pose proof (wf_cap_pos m t WF) as Hc.
  pose proof (Z.mod_pos_bound (ideal t k + j) (cap_ t) Hc) as Hr.
  destruct (Z.eq_dec ((ideal t k + j) mod cap_ t) idx) as [E | NE].
  - rewrite E in *. exists c.
    rewrite (slot_store_eq m t WF idx c Hi).
    destruct (Hrep j b Hj E Hs Ho Hne Hp) as (? & ? & ?). auto.
  - exists b. rewrite slot_store_ne by lia. auto.
Qed.

(** A path never reaches the slot that lies at its own end. *)
Lemma path_misses_end (t : BenchRHH) (idx k j : Z) :
  well_formed m t -> 0 <= idx < cap_ t ->
  0 <= j < displacement t idx k ->
  (ideal t k + j) mod cap_ t <> idx.
Proof.
  intros WF Hi Hj E. unfold displacement in Hj.
  pose proof (wf_cap_pos m t WF) as Hc.
  pose proof (disp_range (cap_ t) idx (ideal t k) Hc) as R.
  pose proof (disp_walk (cap_ t) idx (ideal t k) Hi) as W.
  assert (E' : (ideal t k + j) mod cap_ t =
               (ideal t k + (idx - ideal t k) mod cap_ t) mod cap_ t)
    by (rewrite W; exact E).
  apply walk_inj in E'; lia.
Qed.
End Invariant.

Section Preservation.
Variable m : Z.

(** Placing the carried record: into an empty slot, or over a resident
    with a smaller psl (the swap). *)
Lemma robin_hood_store (t : BenchRHH) (idx : Z) (e c : Bucket) :
  well_formed m t -> robin_hood t -> 0 <= idx < cap_ t ->
  slot t idx = Some e -> carried_ok t c idx ->
  (occupied e = true -> psl e < psl c) ->
  robin_hood (store t idx c).
Proof.
  intros WF RH Hi Hs (Hoc & Hp & Hpath & Habs) Hlt i b Hi0 Hsi Hob.
  change (displacement (store t idx c) i (key b)) with (displacement t i (key b)).
  destruct (Z.eq_dec i idx) as [-> | NE].
  - rewrite (slot_store_eq m t WF idx c Hi) in Hsi. inversion Hsi; subst b.
    split; [exact Hp |].
    apply (path_ok_store m); auto.
    intros j b0 Hj E. exfalso.
    exact (path_misses_end m t idx (key c) j WF Hi Hj E).
  - rewrite slot_store_ne in Hsi by lia.
    destruct (RH i b Hi0 Hsi Hob) as [Hpb Hpathb].
    split; [exact Hpb |].
    apply (path_ok_store m); auto.
    intros j b0 Hj E Hs0 Ho0 Hne0 Hw.
    rewrite Hs in Hs0. inversion Hs0; subst b0.
    specialize (Hlt Ho0).
    split; [exact Hoc |]. split; [| lia].
    intro Hkc. apply (Habs i b Hi0 Hsi Hob). now symmetry.
Qed.

(** Moving the carried record past an occupied slot whose resident is
    not poorer. *)
Lemma carried_advance (t : BenchRHH) (idx : Z) (e c : Bucket) :
  well_formed m t -> 0 <= idx < cap_ t ->
  slot t idx = Some e -> occupied e = true -> psl c <= psl e ->
  carried_ok t c idx ->
  (16 <= m \/ displacement t idx (key c) + 1 < cap_ t) ->
  carried_ok t (bump c) ((idx + 1) mod cap_ t).
Proof.
  intros WF Hi Hs Hoe Hle (Hoc & Hp & Hpath & Habs) Hroom.
  pose proof (wf_cap_pos m t WF) as Hc.
  assert (Hcap : cap_ t = 2 ^ m) by (destruct WF as (_ & ? & _); assumption).
  unfold carried_ok. cbn [bump key psl occupied].
  unfold displacement in *.
  set (h := ideal t (key c)) in *.
  pose proof (disp_range (cap_ t) idx h Hc) as R.
  rewrite disp_next.
  assert (Hpsl : wrap16 (psl c + 1) = wrap16 (((idx - h) mod cap_ t + 1) mod cap_ t)).
  { rewrite Hp, wrap16_succ.
    destruct Hroom as [H16 | Hlt].
    - rewrite Hcap. now rewrite wrap16_mod_pow2.
    - rewrite (Z.mod_small (_ + 1)) by lia. reflexivity. }
  repeat split; auto.
  intros j Hj.
  pose proof (Z.mod_pos_bound ((idx - h) mod cap_ t + 1) (cap_ t) Hc) as R'.
  destruct (Z.eq_dec ((idx - h) mod cap_ t + 1) (cap_ t)) as [Efull | NE].
  { rewrite Efull, Z.mod_same in Hj by lia. lia. }
  rewrite (Z.mod_small (_ + 1)) in Hj by lia.
  destruct (Z.eq_dec j ((idx - h) mod cap_ t)) as [-> | NEj].
  - exists e. fold h. rewrite disp_walk by lia.
    repeat split; auto.
    + apply (Habs idx e); auto; lia.
    + rewrite <- Hp. exact Hle.
  - apply Hpath. lia.
Qed.

Lemma absent_store (t : BenchRHH) (idx k : Z) (e c : Bucket) :
  well_formed m t -> robin_hood t -> 0 <= idx < cap_ t ->
  slot t idx = Some e -> occupied e = true -> key c <> key e ->
  absent (store t idx c) (key e).
Proof.
  intros WF RH Hi Hs Hoe Hne i b Hi0 Hsi Hob.
  destruct (Z.eq_dec i idx) as [-> | NE].
  - rewrite (slot_store_eq m t WF idx c Hi) in Hsi. inversion Hsi; subst b. exact Hne.
  - rewrite slot_store_ne in Hsi by lia.
    intro Hk. apply NE.
    apply (robin_hood_unique m t i idx b e); auto; lia.
Qed.

(** The loop of [insert] keeps the invariant, whatever exit it takes. *)
Lemma insert_loop_robin_hood (n : nat) : forall k curr idx t,
  well_formed m t -> robin_hood t -> 0 <= idx < cap_ t ->
  ((0 < n)%nat -> carried_ok t curr idx /\ budget_ok m n curr) ->
  robin_hood (snd (insert_loop n k curr idx t)).
Proof.
  induction n as [| n IH]; intros k curr idx t WF RH Hi Hcar; cbn [insert_loop].
  - exact RH.
  - destruct (Hcar ltac:(lia)) as [Car Bud].
    pose proof (wf_cap_pos m t WF) as Hc.
    assert (Hcap : cap_ t = 2 ^ m) by (destruct WF as (_ & ? & _); assumption).
    assert (Hm : 0 <= m < 64) by (destruct WF as (? & _); assumption).
    destruct (wf_slot_some m t WF idx Hi) as [entry Hs].
    unfold slot in Hs. rewrite Hs. fold (slot t idx) in Hs.
    destruct (occupied entry) eqn:Hoe; cbn [negb].
    2:{ cbn [snd]. intros i b Hi0 Hsi Hob. rewrite slot_incr_size in Hsi.
        revert i b Hi0 Hsi Hob.
        apply (robin_hood_store t idx entry curr); auto. congruence. }
    destruct (key entry =? k); [exact RH |].
    rewrite (wf_next m t WF idx Hi).
    pose proof (Z.mod_pos_bound (idx + 1) (cap_ t) Hc) as Hi'.
    destruct (RH idx entry ltac:(lia) Hs Hoe) as [Hpe Hpathe].
    pose proof (disp_range (cap_ t) idx (ideal t (key entry)) Hc) as Re.
    pose proof (disp_range (cap_ t) idx (ideal t (key curr)) Hc) as Rc.
    fold (displacement t idx (key entry)) in Re.
    fold (displacement t idx (key curr)) in Rc.
    destruct Car as (Hoc & Hpc & Hpathc & Habs).
    assert (Hne : key curr <> key entry).
    { intro E. apply (Habs idx entry); auto; lia. }
    (* when the psl is a plain count, it equals the displacement *)
    assert (Hplain : m < 16 -> psl entry = displacement t idx (key entry) /\
                               psl curr = displacement t idx (key curr)).
    { intro Hlow.
      assert (2 ^ m <= 2 ^ 15) by (apply Z.pow_le_mono_r; lia).
      rewrite Hpe, Hpc. split; apply wrap16_small; lia. }
    destruct (psl entry <? psl curr) eqn:Hlt.
    + apply Z.ltb_lt in Hlt.
      assert (RH' : robin_hood (store t idx curr)).
      { apply (robin_hood_store t idx entry curr); auto.
        unfold carried_ok; auto. }
      apply IH; auto using wf_store.
      intros Hn. split.
      * apply (carried_advance (store t idx curr) idx curr entry);
          auto using wf_store.
        -- now apply slot_store_eq with (m := m).
        -- lia.
        -- repeat split; auto.
           ++ apply (path_ok_store m); auto.
              intros j b0 Hj E. exfalso.
              exact (path_misses_end m t idx (key entry) j WF Hi Hj E).
           ++ apply (absent_store t idx k entry curr); auto.
        -- destruct (Z_le_dec 16 m) as [H16 | H16]; [now left | right].
           destruct (Hplain ltac:(lia)) as [E1 E2].
           destruct Bud as [? | [B0 B1]]; [lia |].
           change (displacement (store t idx curr) idx (key entry))
             with (displacement t idx (key entry)).
           change (cap_ (store t idx curr)) with (cap_ t). lia.
      * destruct (Z_le_dec 16 m) as [H16 | H16]; [now left | right].
        destruct (Hplain ltac:(lia)) as [E1 E2].
        destruct Bud as [? | [B0 B1]]; [lia |].
        assert (2 ^ m <= 2 ^ 15) by (apply Z.pow_le_mono_r; lia).
        cbn [bump psl]. rewrite wrap16_small by lia. lia.
    + apply Z.ltb_ge in Hlt.
      apply IH; auto.
      intros Hn. split.
      * apply (carried_advance t idx entry curr); auto.
        -- unfold carried_ok; auto.
        -- destruct (Z_le_dec 16 m) as [H16 | H16]; [now left | right].
           destruct (Hplain ltac:(lia)) as [E1 E2].
           destruct Bud as [? | [B0 B1]]; lia.
      * destruct (Z_le_dec 16 m) as [H16 | H16]; [now left | right].
        destruct (Hplain ltac:(lia)) as [E1 E2].
        destruct Bud as [? | [B0 B1]]; [lia |].
        assert (2 ^ m <= 2 ^ 15) by (apply Z.pow_le_mono_r; lia).
        cbn [bump psl]. rewrite wrap16_small by lia. lia.
Qed.
End Preservation.

(* ===================================================================== *)
(** ** Keys that are present: duplicate insertion and lookup              *)
(* ===================================================================== *)

Lemma slot_of_nat (t : BenchRHH) (n : nat) : slot t (Z.of_nat n) = table_ t !! n.
Proof. unfold slot. now rewrite Nat2Z.id. Qed.

Lemma present_or_absent (t : BenchRHH) (k : Z) : present t k \/ absent t k.
Proof.
  destruct (List.existsb (fun b => occupied b && (key b =? k)) (table_ t)) eqn:E.
  - left. apply List.existsb_exists in E. destruct E as (b & Hin & Hb).
    apply andb_true_iff in Hb. destruct Hb as [Ho Hk]. apply Z.eqb_eq in Hk.
    apply list_elem_of_In, list_elem_of_lookup in Hin. destruct Hin as [n Hn].
    exists (value b), (Z.of_nat n), b. rewrite slot_of_nat. repeat split; auto; lia.
  - right. intros i b Hi Hs Ho Hk.
    assert (Hex : List.existsb (fun b => occupied b && (key b =? k)) (table_ t) = true).
    { apply List.existsb_exists. exists b. split.
      - apply list_elem_of_In, list_elem_of_lookup. unfold slot in Hs. eauto.
      - rewrite Ho. simpl. now apply Z.eqb_eq. }
    congruence.
Qed.

Section PresentKey.
Variables (m : Z) (t : BenchRHH) (k i : Z) (b : Bucket).
Hypothesis WF : well_formed m t.
Hypothesis RH : robin_hood t.
Hypothesis Hi : 0 <= i.
Hypothesis Hs : slot t i = Some b.
Hypothesis Ho : occupied b = true.
Hypothesis Hk : key b = k.

Let D := displacement t i k.

(** [insert] of a present key walks to it without a swap and returns. *)
Lemma insert_loop_to_duplicate (steps : nat) : forall (j : Z) (n : nat) (v : Z),
  0 <= j -> j + Z.of_nat steps = D -> (steps < n)%nat ->
  insert_loop n k (mkBucket k v (wrap16 j) true) ((ideal t k + j) mod cap_ t) t
  = (ReturnDuplicate, t).
Proof.
  pose proof (wf_cap_pos m t WF) as Hc.
  pose proof (wf_slot_range m t WF i b Hi Hs) as Hr.
  destruct (RH i b Hi Hs Ho) as [Hp Hpath]. rewrite Hk in Hp, Hpath. fold D in Hp, Hpath.
  assert (RD : 0 <= D < cap_ t) by (apply disp_range; assumption).
  induction steps as [| steps IH]; intros j n v Hj Hsum Hn;
    (destruct n as [| n]; [lia |]); cbn [insert_loop].
  - assert (j = D) by lia. subst j. unfold D, displacement.
    rewrite disp_walk by lia. unfold slot in Hs. rewrite Hs, Ho, Hk.
    cbn [negb]. now rewrite Z.eqb_refl.
  - destruct (Hpath j ltac:(lia)) as (e & Hse & Hoe & Hne & Hw).
    pose proof (Z.mod_pos_bound (ideal t k + j) (cap_ t) Hc) as Hrange.
    unfold slot in Hse. rewrite Hse, Hoe. cbn [negb psl].
    destruct (Z.eqb_spec (key e) k) as [? | _]; [contradiction |].
    destruct (Z.ltb_spec (psl e) (wrap16 j)) as [? | _]; [lia |].
    rewrite (wf_next m t WF) by assumption.
    rewrite walk_next. unfold bump. cbn [key value psl occupied].
    rewrite wrap16_succ. apply IH; lia.
Qed.

(** [find] of a present key walks to it and returns its value. *)
Lemma find_loop_to_key (steps : nat) : forall (j : Z) (fuel : nat),
  0 <= j -> j + Z.of_nat steps = D -> (steps < fuel)%nat ->
  find_loop fuel t k ((ideal t k + j) mod cap_ t) (wrap16 j) = Found (value b).
Proof.
  pose proof (wf_cap_pos m t WF) as Hc.
  pose proof (wf_slot_range m t WF i b Hi Hs) as Hr.
  destruct (RH i b Hi Hs Ho) as [Hp Hpath]. rewrite Hk in Hp, Hpath. fold D in Hp, Hpath.
  assert (RD : 0 <= D < cap_ t) by (apply disp_range; assumption).
  induction steps as [| steps IH]; intros j fuel Hj Hsum Hn;
    (destruct fuel as [| fuel]; [lia |]); cbn [find_loop].
  - assert (j = D) by lia. subst j. unfold D, displacement.
    rewrite disp_walk by lia. unfold slot in Hs. rewrite Hs, Ho, Hk.
    cbn [negb orb]. fold (displacement t i k). fold D. rewrite Hp.
    rewrite Z.ltb_irrefl. now rewrite Z.eqb_refl.
  - destruct (Hpath j ltac:(lia)) as (e & Hse & Hoe & Hne & Hw).
    pose proof (Z.mod_pos_bound (ideal t k + j) (cap_ t) Hc) as Hrange.
    unfold slot in Hse. rewrite Hse, Hoe. cbn [negb orb].
    destruct (Z.ltb_spec (psl e) (wrap16 j)) as [? | _]; [lia |].
    destruct (Z.eqb_spec (key e) k) as [? | _]; [contradiction |].
    rewrite (wf_next m t WF) by assumption.
    rewrite walk_next, wrap16_succ. apply IH; lia.
Qed.

Lemma insert_present (v : Z) : insert_run k v t = (ReturnDuplicate, t).
Proof.
  pose proof (wf_cap_pos m t WF) as Hc.
  assert (RD : 0 <= D < cap_ t) by (apply disp_range; assumption).
  pose proof (wf_ideal_range m t WF k) as Hid.
  unfold insert_run.
  pose proof (insert_loop_to_duplicate (Z.to_nat D) 0 (Z.to_nat (cap_ t)) v) as H.
  rewrite Z.add_0_r, (Z.mod_small (ideal t k)) in H by assumption.
  change (wrap16 0) with 0 in H. apply H; lia.
Qed.

Lemma find_present (fuel : nat) :
  (Z.to_nat (cap_ t) <= fuel)%nat -> find fuel t k = Found (value b).
Proof.
  intros Hf.
  pose proof (wf_cap_pos m t WF) as Hc.
  assert (RD : 0 <= D < cap_ t) by (apply disp_range; assumption).
  pose proof (wf_ideal_range m t WF k) as Hid.
  unfold find.
  pose proof (find_loop_to_key (Z.to_nat D) 0 fuel) as H.
  rewrite Z.add_0_r, (Z.mod_small (ideal t k)) in H by assumption.
  change (wrap16 0) with 0 in H. apply H; lia.
Qed.
End PresentKey.

Lemma slot_new (c i : Z) (b : Bucket) : slot (BenchRHH_new c) i = Some b -> b = zero_bucket.
Proof. unfold slot; simpl. intros H. now apply lookup_replicate in H. Qed.

Lemma robin_hood_new (c : Z) : robin_hood (BenchRHH_new c).
Proof.
  intros i b _ Hs Ho. apply slot_new in Hs. subst b. discriminate.
Qed.

Lemma displacement_ideal (m : Z) (t : BenchRHH) (k : Z) :
  well_formed m t -> displacement t (ideal t k) k = 0.
Proof.
  intros WF. unfold displacement. rewrite Z.sub_diag. apply Z.mod_0_l.
  pose proof (wf_cap_pos m t WF). lia.
Qed.

(** The record built at the start of [insert], for a key not yet stored. *)
Lemma carried_ok_start (m : Z) (t : BenchRHH) (k v : Z) :
  well_formed m t -> absent t k ->
  carried_ok t (mkBucket k v 0 true) (ideal t k) /\
  budget_ok m (Z.to_nat (cap_ t)) (mkBucket k v 0 true).
Proof.
  intros WF Ha. unfold carried_ok, budget_ok. cbn [key psl occupied].
  rewrite (displacement_ideal m t k WF).
  pose proof (wf_cap_pos m t WF) as Hc.
  assert (Hcap : cap_ t = 2 ^ m) by (destruct WF as (_ & ? & _); assumption).
  repeat split; auto.
  - intros j Hj. lia.
  - right. lia.
Qed.

Lemma insert_robin_hood (m : Z) (t : BenchRHH) (k v : Z) :
  well_formed m t -> robin_hood t -> robin_hood (insert k v t).
Proof.
  intros WF RH.
  destruct (present_or_absent t k) as [(v0 & i & b & Hi & Hs & Ho & Hk & _) | Ha].
  - unfold insert. now rewrite (insert_present m t k i b WF RH Hi Hs Ho Hk v).
  - unfold insert, insert_run. fold (ideal t k).
    apply (insert_loop_robin_hood m); auto.
    + apply (wf_ideal_range m t WF).
    + intros _. now apply carried_ok_start.
Qed.

Lemma reachable_robin_hood (m : Z) (t : BenchRHH) :
  0 <= m < 64 -> reachable (2 ^ m) t -> robin_hood t.
Proof.
  intros Hm R. induction R as [| t k v R IH].
  - apply robin_hood_new.
  - apply (insert_robin_hood m); auto. now apply reachable_wf.
Qed.

(* ===================================================================== *)
(** ** Contents and the number of occupied slots                          *)
(* ===================================================================== *)

Definition kv (b : Bucket) : Z * Z := (key b, value b).

Lemma pairs_store (t : BenchRHH) (idx : Z) (e c : Bucket) :
  slot t idx = Some e -> occupied c = true ->
  exists l1 l2,
    pairs t = l1 ++ (if occupied e then [kv e] else []) ++ l2 /\
    pairs (store t idx c) = l1 ++ kv c :: l2.
Proof.
  unfold slot. intros Hs Hc.
  exists (List.map kv (List.filter occupied (take (Z.to_nat idx) (table_ t)))),
         (List.map kv (List.filter occupied (drop (S (Z.to_nat idx)) (table_ t)))).
  unfold pairs, store; cbn [table_].
  rewrite insert_take_drop by (eapply lookup_lt_Some; eauto).
  rewrite <- (take_drop_middle (table_ t) (Z.to_nat idx) e Hs) at 1.
  rewrite !List.filter_app. cbn [List.filter]. rewrite Hc.
  rewrite !List.map_app. split; [| reflexivity].
  destruct (occupied e); reflexivity.
Qed.

Lemma occupied_count_pairs (t : BenchRHH) : occupied_count t = Z.of_nat (length (pairs t)).
Proof. unfold occupied_count, pairs. now rewrite List.length_map. Qed.

Lemma occupied_count_bound (t : BenchRHH) :
  0 <= occupied_count t <= Z.of_nat (length (table_ t)).
Proof.
  unfold occupied_count. pose proof (List.filter_length_le occupied (table_ t)). lia.
Qed.

Lemma stored_pairs (t : BenchRHH) (k v : Z) : stored t k v <-> List.In (k, v) (pairs t).
Proof.
  unfold pairs. rewrite List.in_map_iff. split.
  - intros (i & b & Hi & Hs & Ho & Hk & Hv). exists b. split.
    + now rewrite Hk, Hv.
    + apply List.filter_In. split; [| assumption].
      apply list_elem_of_In, list_elem_of_lookup. unfold slot in Hs. eauto.
  - intros (b & E & Hin). apply List.filter_In in Hin. destruct Hin as [Hin Ho].
    apply list_elem_of_In, list_elem_of_lookup in Hin. destruct Hin as [n Hn].
    inversion E. exists (Z.of_nat n), b. rewrite slot_of_nat. repeat split; auto; lia.
Qed.

(** What a run of the loop does to the occupied slots and to [size_]:
    one more of each on the placing exit, nothing otherwise. *)
Lemma insert_loop_effect (n : nat) : forall k curr idx t,
  occupied curr = true ->
  let r := insert_loop n k curr idx t in
  match fst r with
  | ReturnPlaced =>
      occupied_count (snd r) = occupied_count t + 1 /\
      size_ (snd r) = wrap64 (size_ t + 1)
  | _ => occupied_count (snd r) = occupied_count t /\ size_ (snd r) = size_ t
  end.
Proof.
  induction n as [| n IH]; intros k curr idx t Hoc; cbn [insert_loop].
  - simpl. auto.
  - destruct (table_ t !! Z.to_nat idx) as [entry |] eqn:Hs; [| simpl; auto].
    destruct (pairs_store t idx entry curr Hs Hoc) as (l1 & l2 & E1 & E2).
    destruct (occupied entry) eqn:Hoe; cbn [negb].
    2:{ cbn [fst snd]. split; [| reflexivity].
        rewrite !occupied_count_pairs.
        change (pairs (incr_size (store t idx curr))) with (pairs (store t idx curr)).
        rewrite E1, E2. rewrite !length_app. simpl. lia. }
    destruct (key entry =? k); [simpl; auto |].
    destruct (psl entry <? psl curr).
    + specialize (IH k (bump entry) (next_idx idx (mask_ t)) (store t idx curr) Hoe).
      cbv zeta in IH.
      assert (Ec : occupied_count (store t idx curr) = occupied_count t).
      { rewrite !occupied_count_pairs, E1, E2. rewrite !length_app. simpl. lia. }
      rewrite Ec in IH. exact IH.
    + apply IH. exact Hoc.
Qed.

Lemma walk_shift (c idx j : Z) : ((idx + 1) mod c + j) mod c = (idx + (j + 1)) mod c.
Proof. rewrite Zplus_mod_idemp_l. f_equal. lia. Qed.

Lemma walk_zero (c idx : Z) : 0 <= idx < c -> (idx + 0) mod c = idx.
Proof. intros. rewrite Z.add_0_r. now apply Z.mod_small. Qed.

Section Placing.
Variable m : Z.

(** With an empty slot among the next [n] slots and no copy of [k] there,
    the loop ends on the placing exit and nothing is lost. *)
Lemma insert_loop_places (n : nat) : forall k curr idx t,
  well_formed m t -> occupied curr = true ->
  0 <= idx < cap_ t -> Z.of_nat n <= cap_ t ->
  (exists j e, 0 <= j < Z.of_nat n /\
     slot t ((idx + j) mod cap_ t) = Some e /\ occupied e = false) ->
  (forall j e, 0 <= j < Z.of_nat n ->
     slot t ((idx + j) mod cap_ t) = Some e -> occupied e = true -> key e <> k) ->
  fst (insert_loop n k curr idx t) = ReturnPlaced /\
  pairs (snd (insert_loop n k curr idx t)) ≡ₚ kv curr :: pairs t.
Proof.
  induction n as [| n IH]; intros k curr idx t WF Hoc Hi Hn Hempty Hkeys.
  { destruct Hempty as (j & _ & Hj & _). lia. }
  cbn [insert_loop].
  pose proof (wf_cap_pos m t WF) as Hc.
  destruct (wf_slot_some m t WF idx Hi) as [entry Hs].
  pose proof Hs as Hs'. unfold slot in Hs'. rewrite Hs'. clear Hs'.
  destruct (pairs_store t idx entry curr Hs Hoc) as (l1 & l2 & E1 & E2).
  destruct (occupied entry) eqn:Hoe; cbn [negb].
  2:{ cbn [fst snd]. split; [reflexivity |].
      change (pairs (incr_size (store t idx curr))) with (pairs (store t idx curr)).
      rewrite E1, E2. simpl. symmetry. apply Permutation_middle. }
  assert (Hne : key entry <> k).
  { apply (Hkeys 0); try lia; [| assumption]. now rewrite walk_zero. }
  destruct (Z.eqb_spec (key entry) k) as [? | _]; [contradiction |].
  rewrite (wf_next m t WF idx Hi).
  pose proof (Z.mod_pos_bound (idx + 1) (cap_ t) Hc) as Hi'.
  (* the window of the remaining probes does not contain [idx] *)
  assert (Hwin : forall j, 0 <= j < Z.of_nat n ->
            ((idx + 1) mod cap_ t + j) mod cap_ t = (idx + (j + 1)) mod cap_ t /\
            (idx + (j + 1)) mod cap_ t <> idx).
  { intros j Hj. split; [apply walk_shift |].
    intro E. rewrite <- (walk_zero (cap_ t) idx Hi) in E at 2.
    apply walk_inj in E; lia. }
  assert (Hempty' : forall t', (forall j, 0 <= j -> j <> idx -> slot t' j = slot t j) ->
            exists j e, 0 <= j < Z.of_nat n /\
              slot t' (((idx + 1) mod cap_ t + j) mod cap_ t) = Some e /\ occupied e = false).
  { intros t' Hsame. destruct Hempty as (j & e & Hj & Hse & Hoe').
    assert (j <> 0).
    { intros ->. rewrite walk_zero in Hse by assumption. congruence. }
    exists (j - 1), e. split; [lia |].
    destruct (Hwin (j - 1) ltac:(lia)) as [-> Hneq].
    replace (j - 1 + 1) with j in * by lia.
    rewrite Hsame; auto.
    apply Z.mod_pos_bound; assumption. }
  assert (Hkeys' : forall t', (forall j, 0 <= j -> j <> idx -> slot t' j = slot t j) ->
            forall j e, 0 <= j < Z.of_nat n ->
              slot t' (((idx + 1) mod cap_ t + j) mod cap_ t) = Some e ->
              occupied e = true -> key e <> k).
  { intros t' Hsame j e Hj Hse Hoe'.
    destruct (Hwin j Hj) as [Ew Hneq]. rewrite Ew in Hse.
    rewrite Hsame in Hse; auto.
    - apply (Hkeys (j + 1) e); auto; lia.
    - apply Z.mod_pos_bound; assumption. }
  destruct (psl entry <? psl curr).
  + destruct (IH k (bump entry) ((idx + 1) mod cap_ t) (store t idx curr)) as [F P];
      auto using wf_store; try (cbn [cap_ store]; lia).
    * apply Hempty'. intros j Hj Hneq. apply slot_store_ne; lia.
    * apply Hkeys'. intros j Hj Hneq. apply slot_store_ne; lia.
    * split; [exact F |]. rewrite P, E1, E2. unfold kv at 1. cbn [bump key value].
      fold (kv entry). simpl.
      rewrite <- !Permutation_middle. apply perm_swap.
  + change (kv curr) with (kv (bump curr)). apply IH; auto; try lia.
    apply Hkeys'. auto.
Qed.
End Placing.

(* ===================================================================== *)
(** ** Room, saturation and keys that are absent                          *)
(* ===================================================================== *)

(** Every slot is occupied. *)
Definition saturated (t : BenchRHH) : Prop :=
  forall i e, 0 <= i -> slot t i = Some e -> occupied e = true.

(** Some slot is empty. *)
Definition has_room (t : BenchRHH) : Prop :=
  exists i e, 0 <= i /\ slot t i = Some e /\ occupied e = false.

Lemma forallb_occupied_false (l : list Bucket) :
  List.forallb occupied l = false ->
  exists (n : nat) e, l !! n = Some e /\ occupied e = false.
Proof.
  induction l as [| x l IH]; simpl; [discriminate |].
  destruct (occupied x) eqn:Hx; simpl.
  - intros H. destruct (IH H) as (n & e & Hn & He). exists (S n), e. auto.
  - intros _. exists O, x. auto.
Qed.

Lemma saturated_or_room (t : BenchRHH) : saturated t \/ has_room t.
Proof.
  destruct (List.forallb occupied (table_ t)) eqn:E.
  - left. intros i e Hi Hs. rewrite List.forallb_forall in E. apply E.
    apply list_elem_of_In, list_elem_of_lookup. unfold slot in Hs. eauto.
  - right. destruct (forallb_occupied_false _ E) as (n & e & Hn & He).
    exists (Z.of_nat n), e. rewrite slot_of_nat. repeat split; auto. lia.
Qed.

Lemma saturated_count (t : BenchRHH) :
  saturated t -> occupied_count t = Z.of_nat (length (table_ t)).
Proof.
  intros S. unfold occupied_count. f_equal. f_equal.
  apply List.forallb_filter_id. apply List.forallb_forall. intros e Hin.
  apply list_elem_of_In, list_elem_of_lookup in Hin. destruct Hin as [n Hn].
  apply (S (Z.of_nat n) e); [lia | now rewrite slot_of_nat].
Qed.

Lemma room_of_count (t : BenchRHH) :
  occupied_count t < Z.of_nat (length (table_ t)) -> has_room t.
Proof.
  intros H. destruct (saturated_or_room t) as [S | R]; [| exact R].
  rewrite (saturated_count t S) in H. lia.
Qed.

Lemma absent_not_stored (t : BenchRHH) (k : Z) :
  absent t k <-> forall v, ~ stored t k v.
Proof.
  split.
  - intros A v (i & b & Hi & Hs & Ho & Hk & _). exact (A i b Hi Hs Ho Hk).
  - intros N i b Hi Hs Ho Hk. apply (N (value b)). exists i, b. auto.
Qed.

Lemma absent_not_present (t : BenchRHH) (k : Z) : absent t k -> ~ present t k.
Proof. intros A [v S]. now apply (proj1 (absent_not_stored t k) A v). Qed.

Section AbsentKey.
Variables (m : Z) (t : BenchRHH) (k : Z).
Hypothesis WF : well_formed m t.
Hypothesis A : absent t k.

(** Every slot, seen as an offset from the ideal slot of [k]. *)
Lemma slot_as_offset (i : Z) :
  0 <= i < cap_ t ->
  exists j, 0 <= j < cap_ t /\ (ideal t k + j) mod cap_ t = i.
Proof.
  intros Hi. pose proof (wf_cap_pos m t WF) as Hc.
  exists ((i - ideal t k) mod cap_ t). split.
  - now apply disp_range.
  - now apply disp_walk.
Qed.

(** With room, [insert] of an absent key places it and keeps the rest. *)
Lemma insert_absent_room (v : Z) :
  has_room t ->
  insert_exit_of k v t = ReturnPlaced /\ pairs (insert k v t) ≡ₚ (k, v) :: pairs t.
Proof.
  intros (i & e & Hi & Hs & Ho).
  pose proof (wf_cap_pos m t WF) as Hc.
  pose proof (wf_slot_range m t WF i e Hi Hs) as Hr.
  destruct (slot_as_offset i ltac:(lia)) as (j & Hj & Ej).
  unfold insert_exit_of, insert, insert_run. fold (ideal t k).
  change (k, v) with (kv (mkBucket k v 0 true)).
  apply (insert_loop_places m); auto.
  - apply (wf_ideal_range m t WF).
  - lia.
  - exists j, e. rewrite Ej. repeat split; auto; lia.
  - intros j' e' Hj' Hs' Ho'.
    apply (A ((ideal t k + j') mod cap_ t) e'); auto.
    apply Z.mod_pos_bound; assumption.
Qed.

(** In a saturated table the loop runs all its probes. *)
Lemma insert_loop_exhausts (n : nat) : forall curr idx t',
  well_formed m t' -> cap_ t' = cap_ t -> mask_ t' = mask_ t ->
  0 <= idx < cap_ t -> Z.of_nat n <= cap_ t ->
  (forall j e, 0 <= j < Z.of_nat n ->
     slot t' ((idx + j) mod cap_ t) = Some e -> occupied e = true /\ key e <> k) ->
  fst (insert_loop n k curr idx t') = LoopExhausted.
Proof.
  pose proof (wf_cap_pos m t WF) as Hc.
  induction n as [| n IH]; intros curr idx t' WF' Ec Em Hi Hn Hwin; [reflexivity |].
  cbn [insert_loop].
  destruct (wf_slot_some m t' WF' idx ltac:(lia)) as [entry Hs].
  pose proof Hs as Hs'. unfold slot in Hs'. rewrite Hs'. clear Hs'.
  destruct (Hwin 0 entry ltac:(lia)) as [Hoe Hne].
  { now rewrite walk_zero. }
  rewrite Hoe. cbn [negb].
  destruct (Z.eqb_spec (key entry) k) as [? | _]; [contradiction |].
  rewrite (wf_next m t' WF' idx) by lia. rewrite Ec.
  pose proof (Z.mod_pos_bound (idx + 1) (cap_ t) Hc) as Hi'.
  assert (Hwin' : forall t'', (forall j, 0 <= j -> j <> idx -> slot t'' j = slot t' j) ->
            forall j e, 0 <= j < Z.of_nat n ->
              slot t'' (((idx + 1) mod cap_ t + j) mod cap_ t) = Some e ->
              occupied e = true /\ key e <> k).
  { intros t'' Hsame j e Hj Hse. rewrite walk_shift in Hse.
    rewrite Hsame in Hse.
    - apply (Hwin (j + 1)); auto; lia.
    - apply Z.mod_pos_bound; assumption.
    - intro E. rewrite <- (walk_zero (cap_ t) idx Hi) in E at 2.
      apply walk_inj in E; lia. }
  destruct (psl entry <? psl curr).
  - apply IH; auto using wf_store; try lia.
    apply Hwin'. intros j Hj Hneq. apply slot_store_ne; lia.
  - apply IH; auto; try lia.
    apply Hwin'. auto.
Qed.

Lemma insert_absent_saturated (v : Z) :
  saturated t -> insert_exit_of k v t = LoopExhausted.
Proof.
  intros S. pose proof (wf_cap_pos m t WF) as Hc.
  unfold insert_exit_of, insert_run. fold (ideal t k).
  apply insert_loop_exhausts; auto.
  - apply (wf_ideal_range m t WF).
  - lia.
  - intros j e Hj Hs.
    pose proof (Z.mod_pos_bound (ideal t k + j) (cap_ t) Hc).
    split; [apply (S ((ideal t k + j) mod cap_ t) e)
           | apply (A ((ideal t k + j) mod cap_ t) e)]; auto; try lia.
    apply (S ((ideal t k + j) mod cap_ t) e); auto; lia.
Qed.

(** [find] of an absent key stops at the first empty slot, if not
    before. *)
Lemma find_loop_absent_room (steps : nat) : forall (j d : Z) (fuel : nat) (e : Bucket),
  0 <= j -> slot t ((ideal t k + (j + Z.of_nat steps)) mod cap_ t) = Some e ->
  occupied e = false -> (steps < fuel)%nat ->
  find_loop fuel t k ((ideal t k + j) mod cap_ t) d = NotFound.
Proof.
  pose proof (wf_cap_pos m t WF) as Hc.
  induction steps as [| steps IH]; intros j d fuel e Hj Hs Ho Hf;
    (destruct fuel as [| fuel]; [lia |]); cbn [find_loop].
  - rewrite Z.add_0_r in Hs. unfold slot in Hs. rewrite Hs, Ho. reflexivity.
  - pose proof (Z.mod_pos_bound (ideal t k + j) (cap_ t) Hc) as Hr.
    destruct (wf_slot_some m t WF _ Hr) as [x Hx].
    pose proof Hx as Hx'. unfold slot in Hx'. rewrite Hx'. clear Hx'.
    destruct (negb (occupied x) || (psl x <? d)) eqn:Estop; [reflexivity |].
    apply orb_false_iff in Estop. destruct Estop as [Hox _].
    apply negb_false_iff in Hox.
    destruct (Z.eqb_spec (key x) k) as [Ek | _].
    { exfalso. apply (A ((ideal t k + j) mod cap_ t) x); auto; lia. }
    rewrite (wf_next m t WF) by assumption. rewrite walk_next.
    apply (IH (j + 1) _ fuel e); try lia; [| assumption].
    replace (j + 1 + Z.of_nat steps) with (j + Z.of_nat (S steps)) by lia.
    exact Hs.
Qed.

Lemma find_absent_room (fuel : nat) :
  has_room t -> (Z.to_nat (cap_ t) <= fuel)%nat -> find fuel t k = NotFound.
Proof.
  intros (i & e & Hi & Hs & Ho) Hf.
  pose proof (wf_cap_pos m t WF) as Hc.
  pose proof (wf_slot_range m t WF i e Hi Hs) as Hr.
  destruct (slot_as_offset i ltac:(lia)) as (j & Hj & Ej).
  pose proof (wf_ideal_range m t WF k) as Hid.
  unfold find. fold (ideal t k).
  rewrite <- (Z.mod_small (ideal t k) (cap_ t)) at 1 by assumption.
  rewrite <- (Z.add_0_r (ideal t k)) at 1.
  apply (find_loop_absent_room (Z.to_nat j) 0 0 fuel e); try lia; [| assumption].
  rewrite Z.add_0_l, Z2Nat.id by lia. now rewrite Ej.
Qed.
End AbsentKey.

Section AbsentKeySmall.
Variables (m : Z) (t : BenchRHH) (k : Z).
Hypothesis WF : well_formed m t.
Hypothesis RH : robin_hood t.
Hypothesis A : absent t k.
Hypothesis Hsmall : m < 15.

(** Below [2^15] slots the probe distance is a plain count; after [cap_]
    steps it exceeds every stored psl. *)
Lemma find_loop_absent_small (steps : nat) : forall (j : Z) (fuel : nat),
  0 <= j -> j + Z.of_nat steps = cap_ t -> (steps < fuel)%nat ->
  find_loop fuel t k ((ideal t k + j) mod cap_ t) j = NotFound.
Proof.
  pose proof (wf_cap_pos m t WF) as Hc.
  assert (Hcap : cap_ t = 2 ^ m) by (destruct WF as (_ & ? & _); assumption).
  assert (Hm : 0 <= m < 64) by (destruct WF as (? & _); assumption).
  assert (Hle : cap_ t <= 2 ^ 14) by (rewrite Hcap; apply Z.pow_le_mono_r; lia).
  induction steps as [| steps IH]; intros j fuel Hj Hsum Hf;
    (destruct fuel as [| fuel]; [lia |]); cbn [find_loop];
    pose proof (Z.mod_pos_bound (ideal t k + j) (cap_ t) Hc) as Hr;
    destruct (wf_slot_some m t WF _ Hr) as [x Hx];
    pose proof Hx as Hx'; unfold slot in Hx'; rewrite Hx'; clear Hx';
    destruct (occupied x) eqn:Hox; cbn [negb orb]; try reflexivity.
  - destruct (RH _ x (proj1 Hr) Hx Hox) as [Hp _].
    pose proof (disp_range (cap_ t) ((ideal t k + j) mod cap_ t)
                  (ideal t (key x)) Hc) as Rd.
    fold (displacement t ((ideal t k + j) mod cap_ t) (key x)) in Rd.
    rewrite wrap16_small in Hp by lia.
    destruct (Z.ltb_spec (psl x) j); [reflexivity | lia].
  - destruct (psl x <? j); [reflexivity |].
    destruct (Z.eqb_spec (key x) k) as [Ek | _].
    { exfalso. apply (A ((ideal t k + j) mod cap_ t) x); auto; lia. }
    rewrite (wf_next m t WF) by assumption. rewrite walk_next.
    rewrite wrap16_small by lia.
    apply IH; lia.
Qed.

Lemma find_absent_small (fuel : nat) :
  (Z.to_nat (cap_ t) + 1 <= fuel)%nat -> find fuel t k = NotFound.
Proof.
  intros Hf. pose proof (wf_cap_pos m t WF) as Hc.
  pose proof (wf_ideal_range m t WF k) as Hid.
  unfold find. fold (ideal t k).
  rewrite <- (Z.mod_small (ideal t k) (cap_ t)) at 1 by assumption.
  rewrite <- (Z.add_0_r (ideal t k)) at 1.
  apply (find_loop_absent_small (Z.to_nat (cap_ t))); lia.
Qed.
End AbsentKeySmall.

(* ===================================================================== *)
(** ** The size counter                                                   *)
(* ===================================================================== *)

Lemma filter_occupied_zero (n : nat) : List.filter occupied (replicate n zero_bucket) = [].
Proof. induction n as [| n IH]; simpl; auto. Qed.

Lemma occupied_count_new (c : Z) : occupied_count (BenchRHH_new c) = 0.
Proof. unfold occupied_count, BenchRHH_new; cbn [table_]. now rewrite filter_occupied_zero. Qed.

Lemma reachable_length (c : Z) (t : BenchRHH) :
  reachable c t -> length (table_ t) = Z.to_nat c /\ cap_ t = c.
Proof.
  intros R. induction R as [| t k v R [IH1 IH2]].
  - simpl. split; [apply length_replicate | reflexivity].
  - unfold insert, insert_run.
    destruct (insert_loop_fields (Z.to_nat (cap_ t)) k (mkBucket k v 0 true)
                (Z.land (hash k) (mask_ t)) t) as (E1 & _ & E3).
    cbv zeta in E1, E3. now rewrite E1, E3.
Qed.

(** The effect of one [insert] on a table whose counter is exact. *)
Lemma insert_size (c : Z) (t : BenchRHH) (k v : Z) :
  0 <= c < two64 -> length (table_ t) = Z.to_nat c ->
  size_ t = occupied_count t ->
  size_ (insert k v t) = occupied_count (insert k v t) /\
  size_ (insert k v t) =
    size_ t + (match insert_exit_of k v t with ReturnPlaced => 1 | _ => 0 end).
Proof.
  intros Hc Hl Hsz.
  pose proof (insert_loop_effect (Z.to_nat (cap_ t)) k (mkBucket k v 0 true)
                (Z.land (hash k) (mask_ t)) t eq_refl) as E.
  cbv zeta in E. fold (insert_run k v t) in E.
  fold (insert k v t) in E. fold (insert_exit_of k v t) in E.
  destruct (insert_loop_fields (Z.to_nat (cap_ t)) k (mkBucket k v 0 true)
              (Z.land (hash k) (mask_ t)) t) as (_ & _ & E3).
  cbv zeta in E3. fold (insert_run k v t) in E3. fold (insert k v t) in E3.
  pose proof (occupied_count_bound (insert k v t)) as B.
  rewrite E3, Hl in B.
  destruct (insert_exit_of k v t); destruct E as [Eo Es]; rewrite Es, Eo; try lia.
  rewrite Hsz, wrap64_small; lia.
Qed.

Lemma reachable_size (c : Z) (t : BenchRHH) :
  0 <= c < two64 -> reachable c t -> size_ t = occupied_count t.
Proof.
  intros Hc R. induction R as [| t k v R IH].
  - now rewrite occupied_count_new.
  - destruct (reachable_length c t R) as [Hl _].
    now destruct (insert_size c t k v Hc Hl IH).
Qed.

(* ===================================================================== *)
(** ** Sequences of insertions                                            *)
(* ===================================================================== *)

Lemma insert_all_app (l1 l2 : list (Z * Z)) (t : BenchRHH) :
  insert_all (l1 ++ l2) t = insert_all l2 (insert_all l1 t).
Proof. unfold insert_all. apply List.fold_left_app. Qed.

Lemma reachable_insert_all (c : Z) (kvs : list (Z * Z)) : forall t,
  reachable c t -> reachable c (insert_all kvs t).
Proof.
  induction kvs as [| [k v] kvs IH]; intros t R; simpl; [exact R |].
  apply IH. now apply reach_insert.
Qed.

(** Inserting distinct fresh keys while there is room keeps every pair. *)
Lemma insert_all_distinct (m : Z) (kvs : list (Z * Z)) : forall t,
  well_formed m t -> robin_hood t ->
  List.NoDup (List.map fst kvs) ->
  (forall k, List.In k (List.map fst kvs) -> absent t k) ->
  occupied_count t + Z.of_nat (length kvs) <= cap_ t ->
  pairs (insert_all kvs t) ≡ₚ kvs ++ pairs t.
Proof.
  induction kvs as [| [k v] kvs IH]; intros t WF RH ND Hab Hcnt; [reflexivity |].
  cbn [insert_all fold_left fst snd]. fold (insert_all kvs (insert k v t)).
  cbn [List.map fst] in ND, Hab. inversion ND as [| ? ? Hnotin ND']; subst.
  assert (Hlen : Z.of_nat (length (table_ t)) = cap_ t).
  { destruct WF as (Hm & Hc & _ & Hl). rewrite Hl, Hc.
    pose proof (pow2_pos m ltac:(lia)). lia. }
  assert (Hroom : has_room t).
  { apply room_of_count. cbn [length] in Hcnt. lia. }
  destruct (insert_absent_room m t k WF (Hab k (or_introl eq_refl)) v Hroom) as [_ P].
  assert (Hfields : cap_ (insert k v t) = cap_ t).
  { apply (insert_loop_fields (Z.to_nat (cap_ t))). }
  rewrite IH.
  - rewrite P. simpl. symmetry. apply Permutation_middle.
  - now apply insert_wf.
  - now apply (insert_robin_hood m).
  - exact ND'.
  - intros k' Hin. apply absent_not_stored. intros v' St.
    apply stored_pairs in St. apply (Permutation_in _ P) in St.
    destruct St as [E | St].
    + inversion E; subst. contradiction.
    + apply stored_pairs in St.
      apply (proj1 (absent_not_stored t k') (Hab k' (or_intror Hin)) v' St).
  - rewrite Hfields, !occupied_count_pairs.
    rewrite (Permutation_length P). rewrite occupied_count_pairs in Hcnt.
    cbn [length] in *. lia.
Qed.

(* ===================================================================== *)
(** ** [hash] is a bijection on 64-bit values                             *)
(* ===================================================================== *)

Definition hash_mult_inv : Z := 0x4f74430c22a54005.

(** The inverse of [hash]: undo the three steps in reverse order. *)
Definition hash_inv (y : Z) : Z :=
  xorshift33 (wrap64 (xorshift33 y * hash_mult_inv)).

Lemma u64_bits_high (k n : Z) : 0 <= k < two64 -> 64 <= n -> Z.testbit k n = false.
Proof.
  intros Hk Hn. rewrite <- (Z.mod_small k (2 ^ 64)) by exact Hk.
  apply Z.mod_pow2_bits_high. lia.
Qed.

Lemma xorshift33_range (k : Z) : 0 <= k < two64 -> 0 <= xorshift33 k < two64.
Proof.
  intros Hk.
  assert (E : xorshift33 k mod 2 ^ 64 = xorshift33 k).
  { apply Z.bits_inj'. intros n Hn.
    destruct (Z_lt_dec n 64) as [L | G].
    - apply Z.mod_pow2_bits_low. lia.
    - rewrite Z.mod_pow2_bits_high by lia.
      unfold xorshift33. rewrite Z.lxor_spec, Z.shiftr_spec by lia.
      rewrite !u64_bits_high by (auto; lia). reflexivity. }
  rewrite <- E. apply Z.mod_pos_bound. reflexivity.
Qed.

Lemma xorshift33_involutive (k : Z) : 0 <= k < two64 -> xorshift33 (xorshift33 k) = k.
Proof.
  intros Hk. apply Z.bits_inj'. intros n Hn.
  unfold xorshift33.
  rewrite !Z.lxor_spec, !Z.shiftr_spec, !Z.lxor_spec, !Z.shiftr_spec by lia.
  rewrite (u64_bits_high k (n + 33 + 33)) by (auto; lia).
  destruct (Z.testbit k n), (Z.testbit k (n + 33)); reflexivity.
Qed.

Lemma hash_mult_inverse : wrap64 (hash_mult_inv * hash_mult) = 1.
Proof. reflexivity. Qed.

Lemma hash_hash_inv (y : Z) : 0 <= y < two64 -> hash (hash_inv y) = y.
Proof.
  intros Hy. unfold hash, hash_inv. cbv zeta.
  assert (Hw : 0 <= wrap64 (xorshift33 y * hash_mult_inv) < two64)
    by (apply Z.mod_pos_bound; reflexivity).
  rewrite (xorshift33_involutive _ Hw).
  unfold wrap64 at 1 2. rewrite Zmult_mod_idemp_l.
  rewrite <- Z.mul_assoc, <- Zmult_mod_idemp_r.
  change ((hash_mult_inv * hash_mult) mod two64) with (wrap64 (hash_mult_inv * hash_mult)).
  rewrite hash_mult_inverse, Z.mul_1_r.
  rewrite Z.mod_small by (apply xorshift33_range; exact Hy).
  now apply xorshift33_involutive.
Qed.

(* ===================================================================== *)
(** ** A family of keys that share their ideal slot                       *)
(* ===================================================================== *)

(** The key whose hash is [j * 2^16]: its ideal slot is [0] in every
    table of at most [2^16] slots. *)
Definition chain_key (j : Z) : Z := hash_inv (j * 2 ^ 16).

(** The first [n] keys of the family, the [j]-th with value [j]. *)
Definition chain_pairs (n : Z) : list (Z * Z) :=
  List.map (fun j => (chain_key j, j)) (seqZ 0 n).

Definition chain_bucket (j : Z) : Bucket := mkBucket (chain_key j) j (wrap16 j) true.

(** Slots [0 .. n-1] hold the first [n] keys of the family in order, the
    rest is empty. *)
Definition chain_state (n : Z) (t : BenchRHH) : Prop :=
  forall i, 0 <= i < cap_ t ->
    slot t i = Some (if i <? n then chain_bucket i else zero_bucket).

Lemma chain_key_hash (j : Z) : 0 <= j < 2 ^ 48 -> hash (chain_key j) = j * 2 ^ 16.
Proof. intros Hj. apply hash_hash_inv. unfold two64. lia. Qed.

Lemma chain_key_inj (i j : Z) :
  0 <= i < 2 ^ 48 -> 0 <= j < 2 ^ 48 -> chain_key i = chain_key j -> i = j.
Proof.
  intros Hi Hj E. apply (f_equal hash) in E.
  rewrite !chain_key_hash in E by assumption. lia.
Qed.

Section Chain.
Variables (m : Z).
Hypothesis Hm16 : m <= 16.

Lemma chain_key_ideal (t : BenchRHH) (j : Z) :
  well_formed m t -> 0 <= j < 2 ^ 48 -> ideal t (chain_key j) = 0.
Proof.
  intros WF Hj. rewrite (wf_ideal m t WF), chain_key_hash by assumption.
  destruct WF as (Hm & -> & _).
  replace (2 ^ 16) with (2 ^ (16 - m) * 2 ^ m)
    by (rewrite <- Z.pow_add_r by lia; f_equal; lia).
  rewrite Z.mul_assoc. apply Z_mod_mult.
Qed.

Lemma cap_le_two16 (t : BenchRHH) : well_formed m t -> cap_ t <= 2 ^ 16.
Proof. intros (Hm & -> & _). apply Z.pow_le_mono_r; lia. Qed.

(** Inserting the next key of the family walks over the chain without a
    swap and lands in the first empty slot. *)
Lemma chain_insert_loop (t : BenchRHH) (n v : Z) (steps : nat) :
  well_formed m t -> chain_state n t -> 0 <= n < cap_ t ->
  forall (j : Z) (fuel : nat),
    0 <= j -> j + Z.of_nat steps = n -> (steps < fuel)%nat ->
    insert_loop fuel (chain_key n) (mkBucket (chain_key n) v (wrap16 j) true) j t
    = (ReturnPlaced, incr_size (store t n (mkBucket (chain_key n) v (wrap16 n) true))).
Proof.
  intros WF CS Hn. pose proof (cap_le_two16 t WF) as Hcap.
  induction steps as [| steps IH]; intros j fuel Hj Hsum Hf;
    (destruct fuel as [| fuel]; [lia |]); cbn [insert_loop];
    pose proof (CS j ltac:(lia)) as Hs; unfold slot in Hs; rewrite Hs.
  - assert (j = n) by lia. subst j. rewrite Z.ltb_irrefl. reflexivity.
  - destruct (Z.ltb_spec j n) as [_ | ?]; [| lia].
    cbn [chain_bucket occupied negb key psl].
    destruct (Z.eqb_spec (chain_key j) (chain_key n)) as [E | _].
    { apply chain_key_inj in E; lia. }
    rewrite Z.ltb_irrefl.
    rewrite (wf_next m t WF) by lia. rewrite Z.mod_small by lia.
    unfold bump. cbn [key value psl occupied]. rewrite wrap16_succ.
    apply IH; lia.
Qed.

Lemma chain_insert (t : BenchRHH) (n : Z) :
  well_formed m t -> chain_state n t -> 0 <= n < cap_ t ->
  chain_state (n + 1) (insert (chain_key n) n t).
Proof.
  intros WF CS Hn. pose proof (cap_le_two16 t WF) as Hcap.
  unfold insert, insert_run. fold (ideal t (chain_key n)).
  rewrite (chain_key_ideal t n WF) by lia.
  change 0 with (wrap16 0) at 1.
  rewrite (chain_insert_loop t n n (Z.to_nat n) WF CS Hn 0) by lia.
  cbn [snd]. intros i Hi. rewrite slot_incr_size.
  change (cap_ (incr_size (store t n (mkBucket (chain_key n) n (wrap16 n) true))))
    with (cap_ t) in Hi.
  destruct (Z.eq_dec i n) as [-> | NE].
  - rewrite (slot_store_eq m t WF) by lia.
    destruct (Z.ltb_spec n (n + 1)); [reflexivity | lia].
  - rewrite slot_store_ne by lia. rewrite (CS i Hi).
    destruct (Z.ltb_spec i n), (Z.ltb_spec i (n + 1)); try reflexivity; lia.
Qed.

Lemma chain_state_new : 0 <= m < 64 -> chain_state 0 (BenchRHH_new (2 ^ m)).
Proof.
  intros Hm i Hi. cbn [cap_ BenchRHH_new] in Hi.
  destruct (Z.ltb_spec i 0); [lia |].
  unfold slot, BenchRHH_new; cbn [table_].
  apply lookup_replicate. split; [reflexivity | lia].
Qed.

(** The table after inserting the first [n] keys of the family. *)
Lemma chain_insert_all (n : nat) :
  0 <= m < 64 -> Z.of_nat n <= 2 ^ m ->
  chain_state (Z.of_nat n) (insert_all (chain_pairs (Z.of_nat n)) (BenchRHH_new (2 ^ m))).
Proof.
  intros Hm. induction n as [| n IH]; intros Hn.
  - apply chain_state_new; assumption.
  - unfold chain_pairs. rewrite seqZ_S, List.map_app, insert_all_app.
    fold (chain_pairs (Z.of_nat n)). cbn [List.map insert_all fold_left fst snd].
    rewrite Z.add_0_l.
    replace (Z.of_nat (S n)) with (Z.of_nat n + 1) by lia.
    assert (WF : well_formed m (insert_all (chain_pairs (Z.of_nat n)) (BenchRHH_new (2 ^ m)))).
    { apply reachable_wf; [assumption |].
      apply reachable_insert_all, reach_new. }
    apply chain_insert; auto.
    + apply IH. lia.
    + destruct WF as (_ & -> & _). lia.
Qed.
End Chain.

Lemma chain_insert_all_Z (m n : Z) :
  0 <= m <= 16 -> 0 <= n <= 2 ^ m ->
  chain_state n (insert_all (chain_pairs n) (BenchRHH_new (2 ^ m))).
Proof.
  intros Hm Hn. rewrite <- (Z2Nat.id n) by lia.
  apply (chain_insert_all m); lia.
Qed.

Lemma wrap16_mod_le (j : Z) : wrap16 j <= j mod 2 ^ 15.
Proof.
  unfold wrap16.
  change (2 ^ 15) with 32768. change (2 ^ 16) with 65536.
  pose proof (Z.mod_pos_bound j 32768 ltac:(lia)).
  pose proof (Z.mod_pos_bound (j + 32768) 65536 ltac:(lia)).
  pose proof (Z.div_mod j 32768 ltac:(lia)).
  pose proof (Z.div_mod (j + 32768) 65536 ltac:(lia)).
  lia.
Qed.

(** On a table of [2^15] slots filled by the chain, the loop of [find]
    for another key of the same ideal slot never meets a stopping
    condition: the probe distance wraps at [2^15] before it can exceed a
    stored psl. *)
Lemma find_loop_chain_diverges (t : BenchRHH) (k : Z) :
  well_formed 15 t -> chain_state (cap_ t) t ->
  (forall i, 0 <= i < cap_ t -> chain_key i <> k) ->
  forall (fuel : nat) (j : Z), 0 <= j ->
    find_loop fuel t k (j mod cap_ t) (wrap16 j) = OutOfFuel.
Proof.
  intros WF CS Hk.
  assert (Hcap : cap_ t = 2 ^ 15) by (destruct WF as (_ & ? & _); assumption).
  induction fuel as [| fuel IH]; intros j Hj; [reflexivity |].
  cbn [find_loop].
  pose proof (Z.mod_pos_bound j (cap_ t) ltac:(lia)) as Hr.
  pose proof (CS (j mod cap_ t) Hr) as Hs. unfold slot in Hs. rewrite Hs.
  destruct (Z.ltb_spec (j mod cap_ t) (cap_ t)) as [_ | ?]; [| lia].
  cbn [chain_bucket occupied negb orb key psl].
  pose proof (wrap16_mod_le j) as Hle.
  rewrite Hcap in *.
  rewrite (wrap16_small (j mod 2 ^ 15)) by lia.
  destruct (Z.ltb_spec (j mod 2 ^ 15) (wrap16 j)) as [? | _]; [lia |].
  destruct (Z.eqb_spec (chain_key (j mod 2 ^ 15)) k) as [E | _].
  { exfalso. apply (Hk (j mod 2 ^ 15)); auto. }
  rewrite (wf_next 15 t WF) by lia. rewrite Hcap.
  rewrite Zplus_mod_idemp_l, wrap16_succ.
  apply IH. lia.
Qed.

(* ===================================================================== *)
(** ** Calls as the caller sees them                                      *)
(* ===================================================================== *)

(** The error taxonomy of the specification. *)
Inductive error : Type := InvalidCapacity | AllocationFailure | TableFull.

(** A call either returns or fails with an error. *)
Inductive outcome (A : Type) : Type :=
  | Returned (a : A)
  | Failed (e : error).
Arguments Returned {A} a.
Arguments Failed {A} e.

(** The constructor has a single way out: it validates nothing, throws
    nothing, stores the capacity as given and does not look at what
    [calloc] returned. *)
Definition construct (grant : bool) (c : Z) : outcome BenchRHH :=
  Returned (BenchRHH_ctor grant c).


Lemma ctor_with_block (grant : bool) (c : Z) (block : list Bucket) :
  calloc_Bucket grant c = Some block -> BenchRHH_ctor grant c = BenchRHH_new c.
Proof.
  unfold BenchRHH_ctor, BenchRHH_new, calloc_Bucket.
  destruct (grant && (c * sizeof_Bucket <? two64)); [reflexivity | discriminate].
Qed.

Lemma ctor_with_null (grant : bool) (c : Z) :
  calloc_Bucket grant c = None -> table_ (BenchRHH_ctor grant c) = [].
Proof. unfold BenchRHH_ctor; cbn [table_]. now intros ->. Qed.



(** [insert] returns [void] on each of its three paths and throws
    nothing: the caller gets the updated object and no status. *)
Definition insert_call (k v : Z) (t : BenchRHH) : outcome BenchRHH :=
  Returned (insert k v t).

(** Operations of the public interface. *)
Inductive op : Type :=
  | OpInsert (k v : Z)
  | OpFind (k : Z).

(** [find] is a [const] member function: it cannot write to the object. *)
Definition run_op (t : BenchRHH) (o : op) : BenchRHH :=
  match o with
  | OpInsert k v => insert k v t
  | OpFind _ => t
  end.

Definition run (ops : list op) (t : BenchRHH) : BenchRHH := fold_left run_op ops t.

Definition is_pow2 (c : Z) : Prop := exists m, 0 <= m /\ c = 2 ^ m.

(** Every resident's psl is its exact displacement. *)
Definition psl_exact (t : BenchRHH) : Prop :=
  forall i b, 0 <= i -> slot t i = Some b -> occupied b = true ->
    psl b = displacement t i (key b).

(** [find] came back with an answer. *)
Definition find_returns (r : find_result) : Prop :=
  match r with
  | Found _ | NotFound => True
  | FindBadIndex | OutOfFuel => False
  end.

Lemma reachable_run (c : Z) (ops : list op) : forall t,
  reachable c t -> reachable c (run ops t).
Proof.
  induction ops as [| o ops IH]; intros t R; simpl; [exact R |].
  apply IH. destruct o; simpl; [now apply reach_insert | exact R].
Qed.

Lemma not_pow2_3 : ~ is_pow2 3.
Proof.
  intros (m & Hm & E).
  destruct (Z_lt_dec m 2) as [L | G].
  - assert (m = 0 \/ m = 1) as [-> | ->] by lia; discriminate.
  - replace m with (2 + (m - 2)) in E by lia.
    rewrite Z.pow_add_r in E by lia. lia.
Qed.

(* ===================================================================== *)
(** ** Properties of the table                                            *)
(* ===================================================================== *)

(** What is known about the table after inserting distinct keys into a
    fresh one while it has room. *)
Lemma fresh_insert_all (m : Z) (kvs : list (Z * Z)) :
  0 <= m < 64 -> List.NoDup (List.map fst kvs) ->
  Z.of_nat (length kvs) <= 2 ^ m ->
  let t := insert_all kvs (BenchRHH_new (2 ^ m)) in
  reachable (2 ^ m) t /\ well_formed m t /\ robin_hood t /\ pairs t ≡ₚ kvs.
Proof.
  intros Hm ND Hlen t.
  assert (R : reachable (2 ^ m) t) by apply reachable_insert_all, reach_new.
  split; [exact R |].
  split; [now apply reachable_wf |].
  split; [now apply (reachable_robin_hood m) |].
  unfold t. rewrite (insert_all_distinct m); auto.
  - unfold pairs at 1. cbn [table_ BenchRHH_new].
    rewrite filter_occupied_zero. simpl. now rewrite List.app_nil_r.
  - now apply wf_new.
  - apply robin_hood_new.
  - intros k _ i b _ Hs Ho. apply slot_new in Hs. subst b. discriminate.
  - rewrite occupied_count_new. cbn [cap_ BenchRHH_new]. lia.
Qed.

(** C1 (round trip).  After inserting pairwise distinct keys, fewer than
    the capacity [2^m], into a fresh table, [find] on any inserted key
    returns within [2^m] probes with the value given at its insertion. *)
Theorem round_trip (m : Z) (kvs : list (Z * Z)) (k v : Z) (fuel : nat) :
  0 <= m < 64 ->
  List.NoDup (List.map fst kvs) ->
  Z.of_nat (length kvs) < 2 ^ m ->
  List.In (k, v) kvs ->
  (Z.to_nat (2 ^ m) <= fuel)%nat ->
  find fuel (insert_all kvs (BenchRHH_new (2 ^ m))) k = Found v.
Proof.
  intros Hm ND Hlen Hin Hf.
  destruct (fresh_insert_all m kvs Hm ND ltac:(lia)) as (R & WF & RH & P).
  set (t := insert_all kvs (BenchRHH_new (2 ^ m))) in *.
  assert (St : stored t k v).
  { apply stored_pairs. apply (Permutation_in _ (symmetry P)). exact Hin. }
  destruct St as (i & b & Hi & Hs & Ho & Hk & Hv).
  rewrite <- Hv. apply (find_present m t k i b); auto.
  destruct WF as (_ & -> & _). exact Hf.
Qed.

Lemma round_trip_witness :
  find 4 (insert_all [(1, 10); (2, 20); (3, 30)] (BenchRHH_new (2 ^ 2))) 2 = Found 20.
Proof.
  apply (round_trip 2 [(1, 10); (2, 20); (3, 30)] 2 20 4).
  - lia.
  - repeat constructor; simpl; intuition discriminate.
  - simpl. lia.
  - simpl. auto.
  - simpl. lia.
Defined.

(** C5 (capacity sufficiency).  In a sequence of fewer than [2^m] distinct
    keys inserted into a fresh table of capacity [2^m], every insertion
    leaves through the placing exit within the [2^m] probes of its loop:
    the table then holds the new pair on top of all earlier ones, [size_]
    grows by one, and the pair is still stored at the end. *)
Theorem capacity_sufficiency (m : Z) (pre post : list (Z * Z)) (k v : Z) :
  0 <= m < 64 ->
  List.NoDup (List.map fst (pre ++ (k, v) :: post)) ->
  Z.of_nat (length (pre ++ (k, v) :: post)) < 2 ^ m ->
  let t := insert_all pre (BenchRHH_new (2 ^ m)) in
  insert_exit_of k v t = ReturnPlaced /\
  pairs (insert k v t) ≡ₚ (k, v) :: pairs t /\
  size_ (insert k v t) = size_ t + 1 /\
  stored (insert_all (pre ++ (k, v) :: post) (BenchRHH_new (2 ^ m))) k v.
Proof.
  intros Hm ND Hlen t.
  pose proof (pow2_lt_two64 m Hm) as H64. pose proof (pow2_pos m ltac:(lia)) as Hpos.
  rewrite length_app in Hlen. cbn [length] in Hlen.
  assert (NDpre : List.NoDup (List.map fst pre)).
  { rewrite List.map_app in ND. now apply List.NoDup_app_remove_r in ND. }
  destruct (fresh_insert_all m pre Hm NDpre ltac:(lia)) as (R & WF & RH & P).
  fold t in R, WF, RH, P.
  assert (A : absent t k).
  { apply absent_not_stored. intros v' St. apply stored_pairs in St.
    apply (Permutation_in _ P) in St.
    rewrite List.map_app in ND. cbn [List.map fst] in ND.
    apply List.NoDup_remove_2 in ND. apply ND.
    apply List.in_or_app. left.
    change k with (fst (k, v')). now apply List.in_map. }
  assert (Hroom : has_room t).
  { apply room_of_count. rewrite occupied_count_pairs, (Permutation_length P).
    destruct WF as (_ & _ & _ & ->). lia. }
  destruct (insert_absent_room m t k WF A v Hroom) as [Ex Pk].
  destruct (reachable_length (2 ^ m) t R) as [Hl _].
  pose proof (reachable_size (2 ^ m) t ltac:(lia) R) as Hsz.
  destruct (insert_size (2 ^ m) t k v ltac:(lia) Hl Hsz) as [_ Hs1].
  rewrite Ex in Hs1.
  repeat split; auto.
  destruct (fresh_insert_all m (pre ++ (k, v) :: post) Hm ND) as (_ & _ & _ & Pall).
  { rewrite length_app. cbn [length]. lia. }
  apply stored_pairs. apply (Permutation_in _ (symmetry Pall)).
  apply List.in_or_app. right. now left.
Qed.

Lemma capacity_sufficiency_witness :
  insert_exit_of 2 20 (insert_all [(1, 10)] (BenchRHH_new (2 ^ 2))) = ReturnPlaced /\
  stored (insert_all ([(1, 10)] ++ (2, 20) :: [(3, 30)]) (BenchRHH_new (2 ^ 2))) 2 20.
Proof.
  destruct (capacity_sufficiency 2 [(1, 10)] [(3, 30)] 2 20) as (H1 & _ & _ & H4).
  - lia.
  - repeat constructor; simpl; intuition discriminate.
  - simpl. lia.
  - split; [exact H1 | exact H4].
Defined.

(** C4 (duplicate insert).  In every state reached by insertions,
    inserting a key that is already stored leaves the object unchanged
    (slots, [size_] and all): the loop takes the duplicate return, the
    value stored first is the only one under that key, and no key sits in
    two slots. *)
Theorem duplicate_insert_noop (m : Z) (t : BenchRHH) (k v0 v : Z) :
  0 <= m < 64 -> reachable (2 ^ m) t -> stored t k v0 ->
  insert k v t = t /\
  insert_exit_of k v t = ReturnDuplicate /\
  (forall v', stored (insert k v t) k v' -> v' = v0) /\
  (forall i i' b b', 0 <= i -> 0 <= i' ->
     slot t i = Some b -> slot t i' = Some b' ->
     occupied b = true -> occupied b' = true -> key b = key b' -> i = i').
Proof.
  intros Hm R (i & b & Hi & Hs & Ho & Hk & Hv).
  pose proof (reachable_wf m t Hm R) as WF.
  pose proof (reachable_robin_hood m t Hm R) as RH.
  pose proof (insert_present m t k i b WF RH Hi Hs Ho Hk v) as E.
  unfold insert, insert_exit_of. rewrite E. cbn [fst snd].
  repeat split.
  - intros v' (i' & b' & Hi' & Hs' & Ho' & Hk' & Hv').
    assert (i' = i).
    { apply (robin_hood_unique m t i' i b' b); auto. congruence. }
    subst i'. congruence.
  - intros i1 i2 b1 b2 H1 H2 S1 S2 O1 O2 EK.
    now apply (robin_hood_unique m t i1 i2 b1 b2).
Qed.

Lemma duplicate_insert_noop_witness :
  insert 0 999 (insert 0 100 (BenchRHH_new (2 ^ 1))) = insert 0 100 (BenchRHH_new (2 ^ 1)).
Proof.
  destruct (duplicate_insert_noop 1 (insert 0 100 (BenchRHH_new (2 ^ 1))) 0 100 999)
    as (H & _).
  - lia.
  - apply reach_insert, reach_new.
  - exists 0, (mkBucket 0 100 0 true). repeat split; lia.
  - exact H.
Defined.

(** C2 (psl invariant), as the code keeps it.  In every state reached by
    insertions into a table of capacity [2^m], the psl of each resident is
    its displacement from the ideal slot reduced to a signed 16-bit value;
    it is the exact displacement whenever that is below [2^15], hence
    always when the capacity is at most [2^15]. *)
Theorem psl_invariant (m : Z) (t : BenchRHH) (i : Z) (b : Bucket) :
  0 <= m < 64 -> reachable (2 ^ m) t ->
  0 <= i -> slot t i = Some b -> occupied b = true ->
  psl b = wrap16 ((i - Z.land (hash (key b)) (mask_ t)) mod cap_ t) /\
  ((i - Z.land (hash (key b)) (mask_ t)) mod cap_ t < 2 ^ 15 ->
     psl b = (i - Z.land (hash (key b)) (mask_ t)) mod cap_ t) /\
  (m <= 15 -> psl b = (i - Z.land (hash (key b)) (mask_ t)) mod cap_ t).
Proof.
  intros Hm R Hi Hs Ho.
  pose proof (reachable_wf m t Hm R) as WF.
  destruct (reachable_robin_hood m t Hm R i b Hi Hs Ho) as [Hp _].
  unfold displacement, ideal in Hp.
  pose proof (disp_range (cap_ t) i (Z.land (hash (key b)) (mask_ t))
                (wf_cap_pos m t WF)) as Rd.
  split; [exact Hp |]. split.
  - intros Hlt. rewrite Hp. apply wrap16_small. lia.
  - intros Hle. rewrite Hp. apply wrap16_small.
    assert (cap_ t <= 2 ^ 15).
    { destruct WF as (_ & -> & _). apply Z.pow_le_mono_r; lia. }
    lia.
Qed.

Lemma psl_invariant_witness :
  psl (mkBucket 3 300 1 true) = (1 - Z.land (hash 3) 1) mod 2.
Proof.
  destruct (psl_invariant 1 (insert_all [(0, 100); (3, 300)] (BenchRHH_new (2 ^ 1)))
              1 (mkBucket 3 300 1 true)) as (_ & _ & H).
  - lia.
  - apply reachable_insert_all, reach_new.
  - lia.
  - reflexivity.
  - reflexivity.
  - apply H. lia.
Defined.

(** The chain of 32769 keys in [2^16] slots breaks exactness. *)
Lemma chain_state_not_exact (t : BenchRHH) :
  well_formed 16 t -> chain_state (2 ^ 15 + 1) t -> ~ psl_exact t.
Proof.
  intros WF CS PE.
  assert (Hcap : cap_ t = 2 ^ 16) by (destruct WF as (_ & ? & _); assumption).
  pose proof (CS (2 ^ 15) ltac:(lia)) as Hs.
  destruct (Z.ltb_spec (2 ^ 15) (2 ^ 15 + 1)) as [_ | ?]; [| lia].
  specialize (PE (2 ^ 15) (chain_bucket (2 ^ 15)) ltac:(lia) Hs eq_refl).
  unfold displacement in PE. cbn [chain_bucket key psl] in PE.
  rewrite (chain_key_ideal 16 ltac:(lia) t (2 ^ 15) WF) in PE by lia.
  rewrite Hcap in PE. vm_compute in PE. discriminate.
Qed.

(** The full chain in [2^15] slots makes [find] run forever. *)
Lemma chain_state_find_diverges (t : BenchRHH) (fuel : nat) :
  well_formed 15 t -> chain_state (2 ^ 15) t ->
  find fuel t (chain_key (2 ^ 15)) = OutOfFuel.
Proof.
  intros WF CS.
  assert (Hcap : cap_ t = 2 ^ 15) by (destruct WF as (_ & ? & _); assumption).
  unfold find. fold (ideal t (chain_key (2 ^ 15))).
  rewrite (chain_key_ideal 15 ltac:(lia) t (2 ^ 15) WF) by lia.
  rewrite <- (Z.mod_0_l (cap_ t)) at 1 by lia.
  change 0 with (wrap16 0) at 2.
  apply find_loop_chain_diverges; auto.
  - now rewrite Hcap.
  - intros i Hi E. apply chain_key_inj in E; lia.
  - lia.
Qed.

(** C2 as stated fails: after 32769 keys of one ideal slot have gone into a
    table of [2^16] slots, the last one sits 32768 slots from its ideal
    slot with psl [-32768]. *)
Lemma psl_exact_fails :
  reachable (2 ^ 16) (insert_all (chain_pairs (2 ^ 15 + 1)) (BenchRHH_new (2 ^ 16))) /\
  ~ psl_exact (insert_all (chain_pairs (2 ^ 15 + 1)) (BenchRHH_new (2 ^ 16))).
Proof.
  assert (R : reachable (2 ^ 16)
                (insert_all (chain_pairs (2 ^ 15 + 1)) (BenchRHH_new (2 ^ 16))))
    by apply reachable_insert_all, reach_new.
  split; [exact R |].
  apply chain_state_not_exact.
  - apply (reachable_wf 16); [lia | exact R].
  - apply (chain_insert_all_Z 16); lia.
Qed.

(** C3 at the failing input.  A table of [2^15] slots filled with [2^15]
    keys of one ideal slot: [find] for a further key of that ideal slot,
    never inserted, does not return, whatever number of probes it is
    given. *)
Theorem find_absent_diverges (fuel : nat) :
  reachable (2 ^ 15) (insert_all (chain_pairs (2 ^ 15)) (BenchRHH_new (2 ^ 15))) /\
  ~ List.In (chain_key (2 ^ 15)) (List.map fst (chain_pairs (2 ^ 15))) /\
  find fuel (insert_all (chain_pairs (2 ^ 15)) (BenchRHH_new (2 ^ 15))) (chain_key (2 ^ 15))
  = OutOfFuel.
Proof.
  assert (R : reachable (2 ^ 15)
                (insert_all (chain_pairs (2 ^ 15)) (BenchRHH_new (2 ^ 15))))
    by apply reachable_insert_all, reach_new.
  split; [exact R |]. split.
  - unfold chain_pairs. rewrite List.map_map. cbn [fst].
    rewrite List.in_map_iff. intros (j & E & Hin).
    apply list_elem_of_In, elem_of_seqZ in Hin.
    apply chain_key_inj in E; lia.
  - apply chain_state_find_diverges.
    + apply (reachable_wf 15); [lia | exact R].
    + apply (chain_insert_all_Z 15); lia.
Qed.

(** C6 as stated fails: on a saturated table of one slot, [insert] of a
    new key runs out of probes and returns like any other call; no
    [TableFull] reaches the caller and the key is gone. *)
Lemma table_full_not_reported :
  reachable (2 ^ 0) (insert 1 10 (BenchRHH_new (2 ^ 0))) /\
  insert_exit_of 2 20 (insert 1 10 (BenchRHH_new (2 ^ 0))) = LoopExhausted /\
  insert_call 2 20 (insert 1 10 (BenchRHH_new (2 ^ 0)))
    = Returned (insert 1 10 (BenchRHH_new (2 ^ 0))) /\
  insert_call 2 20 (insert 1 10 (BenchRHH_new (2 ^ 0))) <> Failed TableFull.
Proof.
  split; [apply reach_insert, reach_new |].
  split; [reflexivity |]. split; [reflexivity | discriminate].
Qed.

(** C6, as the code behaves.  In every state reached by insertions, the
    loop of [insert] runs out of probes exactly when every slot is
    occupied and the key is not stored; the call then returns normally,
    with nothing reported, and leaves [size_] and the number of occupied
    slots as they were. *)
Theorem exhausted_insert_returns (m : Z) (t : BenchRHH) (k v : Z) :
  0 <= m < 64 -> reachable (2 ^ m) t ->
  (insert_exit_of k v t = LoopExhausted <-> saturated t /\ absent t k) /\
  (insert_exit_of k v t = LoopExhausted ->
     insert_call k v t = Returned (insert k v t) /\
     size_ (insert k v t) = size_ t /\
     occupied_count (insert k v t) = occupied_count t).
Proof.
  intros Hm R.
  pose proof (reachable_wf m t Hm R) as WF.
  pose proof (reachable_robin_hood m t Hm R) as RH.
  split.
  - split.
    + intros Ex.
      destruct (present_or_absent t k) as [(v0 & i & b & Hi & Hs & Ho & Hk & _) | A].
      { unfold insert_exit_of in Ex.
        rewrite (insert_present m t k i b WF RH Hi Hs Ho Hk v) in Ex. discriminate. }
      destruct (saturated_or_room t) as [S | Room]; [auto |].
      destruct (insert_absent_room m t k WF A v Room) as [Ep _]. congruence.
    + intros [S A]. now apply (insert_absent_saturated m).
  - intros Ex. split; [reflexivity |].
    pose proof (insert_loop_effect (Z.to_nat (cap_ t)) k (mkBucket k v 0 true)
                  (Z.land (hash k) (mask_ t)) t eq_refl) as E.
    cbv zeta in E. fold (insert_run k v t) in E.
    fold (insert k v t) in E. fold (insert_exit_of k v t) in E.
    rewrite Ex in E. destruct E. auto.
Qed.

Lemma exhausted_insert_returns_witness :
  insert_exit_of 2 20 (insert 1 10 (BenchRHH_new (2 ^ 0))) = LoopExhausted /\
  size_ (insert 2 20 (insert 1 10 (BenchRHH_new (2 ^ 0))))
    = size_ (insert 1 10 (BenchRHH_new (2 ^ 0))).
Proof.
  destruct (exhausted_insert_returns 0 (insert 1 10 (BenchRHH_new (2 ^ 0))) 2 20)
    as [_ H].
  - lia.
  - apply reach_insert, reach_new.
  - split; [reflexivity |]. apply H. reflexivity.
Defined.

(** C7 at the failing input.  Capacity 2 holding keys 0 and 2 (ideal slots
    0 and 1): [insert(3, 300)] runs out of probes, yet the new pair is in
    the table afterwards and the stored pair [(2, 200)] is the one that
    was lost. *)
Theorem full_insert_evicts_resident :
  pairs (insert_all [(0, 100); (2, 200)] (BenchRHH_new 2)) = [(0, 100); (2, 200)] /\
  insert_exit_of 3 300 (insert_all [(0, 100); (2, 200)] (BenchRHH_new 2)) = LoopExhausted /\
  pairs (insert 3 300 (insert_all [(0, 100); (2, 200)] (BenchRHH_new 2)))
    = [(0, 100); (3, 300)] /\
  find 3 (insert 3 300 (insert_all [(0, 100); (2, 200)] (BenchRHH_new 2))) 2 = NotFound /\
  find 3 (insert 3 300 (insert_all [(0, 100); (2, 200)] (BenchRHH_new 2))) 3 = Found 300.
Proof. repeat split; reflexivity. Qed.

(** C8 as stated fails: with one slot, occupied, [find] of another key
    needs two probes; the capacity is one. *)
Lemma find_needs_extra_probe :
  reachable (2 ^ 0) (insert 1 10 (BenchRHH_new (2 ^ 0))) /\
  cap_ (insert 1 10 (BenchRHH_new (2 ^ 0))) = 1 /\
  find 1 (insert 1 10 (BenchRHH_new (2 ^ 0))) 2 = OutOfFuel /\
  find 2 (insert 1 10 (BenchRHH_new (2 ^ 0))) 2 = NotFound.
Proof.
  split; [apply reach_insert, reach_new |]. repeat split; reflexivity.
Qed.

(** C8, as the code behaves.  In every state reached by insertions,
    [find] returns within [cap_] probes when the table has an empty slot
    ([size_ < cap_]) or the key is stored, and within [cap_ + 1] probes
    in any state when the capacity is below [2^15]. *)
Theorem find_bounded (m : Z) (t : BenchRHH) (k : Z) (fuel : nat) :
  0 <= m < 64 -> reachable (2 ^ m) t ->
  (size_ t < cap_ t \/ present t k ->
     (Z.to_nat (cap_ t) <= fuel)%nat -> find_returns (find fuel t k)) /\
  (m < 15 ->
     (Z.to_nat (cap_ t) + 1 <= fuel)%nat -> find_returns (find fuel t k)).
Proof.
  intros Hm R.
  pose proof (reachable_wf m t Hm R) as WF.
  pose proof (reachable_robin_hood m t Hm R) as RH.
  pose proof (pow2_lt_two64 m Hm) as H64. pose proof (pow2_pos m ltac:(lia)) as Hpos.
  assert (Hpres : present t k -> (Z.to_nat (cap_ t) <= fuel)%nat ->
                  find_returns (find fuel t k)).
  { intros (v0 & i & b & Hi & Hs & Ho & Hk & _) Hf.
    now rewrite (find_present m t k i b WF RH Hi Hs Ho Hk fuel Hf). }
  split.
  - intros Hcase Hf.
    destruct (present_or_absent t k) as [P | A]; [now apply Hpres |].
    destruct Hcase as [Hsz | P]; [| now apply Hpres].
    rewrite (find_absent_room m t k WF A fuel); [exact I | | exact Hf].
    apply room_of_count.
    rewrite <- (reachable_size (2 ^ m) t ltac:(lia) R).
    destruct WF as (_ & Hc & _ & ->). lia.
  - intros Hsmall Hf.
    destruct (present_or_absent t k) as [P | A]; [apply Hpres; [exact P | lia] |].
    now rewrite (find_absent_small m t k WF RH A Hsmall fuel Hf).
Qed.

Lemma find_bounded_witness :
  find_returns (find 2 (insert 0 100 (BenchRHH_new (2 ^ 1))) 5) /\
  find_returns (find 3 (insert 0 100 (BenchRHH_new (2 ^ 1))) 5).
Proof.
  destruct (find_bounded 1 (insert 0 100 (BenchRHH_new (2 ^ 1))) 5 2) as [H1 _];
    [lia | apply reach_insert, reach_new |].
  destruct (find_bounded 1 (insert 0 100 (BenchRHH_new (2 ^ 1))) 5 3) as [_ H2];
    [lia | apply reach_insert, reach_new |].
  split.
  - apply H1; [left; vm_compute; reflexivity | vm_compute; lia].
  - apply H2; [lia | vm_compute; lia].
Defined.

(** C9 as stated fails: capacities 3 and 0 are accepted, whatever
    [calloc] answers, and the object is built around them as given. *)
Lemma invalid_capacity_accepted :
  ~ is_pow2 3 /\
  construct true 3 = Returned {| table_ := [zero_bucket; zero_bucket; zero_bucket];
                                 cap_ := 3; mask_ := 2; size_ := 0 |} /\
  construct true 3 <> Failed InvalidCapacity /\
  construct false 3 <> Failed InvalidCapacity /\
  construct true 0 = Returned {| table_ := []; cap_ := 0; mask_ := 2 ^ 64 - 1; size_ := 0 |} /\
  construct false 0 <> Failed InvalidCapacity.
Proof.
  split; [exact not_pow2_3 |]. split; [reflexivity |].
  split; [discriminate |]. split; [discriminate |].
  split; [reflexivity | discriminate].
Qed.

(** On a fresh block the first probe of [insert] finds its slot empty. *)
Lemma first_insert_placed (c k v : Z) :
  0 < c < two64 ->
  insert_run k v (BenchRHH_new c) =
  (ReturnPlaced,
   incr_size (store (BenchRHH_new c) (Z.land (hash k) (c - 1)) (mkBucket k v 0 true))).
Proof.
  intros Hc. unfold insert_run. cbn [cap_ mask_ BenchRHH_new].
  rewrite wrap64_small by lia.
  destruct (Z.to_nat c) as [| n] eqn:E; [lia |].
  cbn [insert_loop table_ BenchRHH_new]. rewrite E.
  pose proof (land_bounds (hash k) (c - 1) ltac:(lia)) as Hb.
  assert (Hs : replicate (S n) zero_bucket !! Z.to_nat (Z.land (hash k) (c - 1))
               = Some zero_bucket).
  { apply lookup_replicate. split; [reflexivity | lia]. }
  rewrite Hs. cbn [occupied zero_bucket negb].
  unfold store. cbn [table_ cap_ mask_ size_ BenchRHH_new].
  rewrite wrap64_small by lia. now rewrite E.
Qed.

(** C9, as the code behaves.  Construction is not rejected for any
    capacity, zero and non-powers of two included: no check is made and
    no error raised, whatever [calloc] answers.  The capacity is not
    rounded either: [cap_ = c] and [mask_ = c - 1] (wrapping to
    [2^64 - 1] for [c = 0]) are stored as given, [size_ = 0], and
    [table_] is what [calloc] returned for [c] slots, unchecked: the
    null pointer, or [c] zeroed slots, in which case the object is in
    use at once as a table with that capacity and mask (for [c > 0] the
    first [insert] stores its pair). *)
Theorem construct_unchecked (grant : bool) (c : Z) :
  0 <= c < two64 ->
  exists t, construct grant c = Returned t /\
    construct grant c <> Failed InvalidCapacity /\
    cap_ t = c /\
    mask_ t = (if c =? 0 then 2 ^ 64 - 1 else c - 1) /\
    size_ t = 0 /\
    match calloc_Bucket grant c with
    | Some _ =>
        length (table_ t) = Z.to_nat c /\
        (forall i b, slot t i = Some b -> b = zero_bucket) /\
        (0 < c -> forall k v,
           insert_exit_of k v t = ReturnPlaced /\ stored (insert k v t) k v)
    | None => table_ t = []
    end.
Proof.
  intros Hc. exists (BenchRHH_ctor grant c). split; [reflexivity |].
  split; [discriminate |]. split; [reflexivity |]. split.
  - cbn [mask_ BenchRHH_ctor]. unfold wrap64.
    destruct (Z.eqb_spec c 0) as [-> | NE]; [reflexivity |].
    apply Z.mod_small. unfold two64 in *. lia.
  - split; [reflexivity |].
    destruct (calloc_Bucket grant c) as [block |] eqn:E.
    + rewrite (ctor_with_block grant c block E). split; [| split].
      * apply length_replicate.
      * intros i b Hs. now apply slot_new in Hs.
      * intros Hpos k v.
        unfold insert_exit_of, insert.
        rewrite first_insert_placed by lia. cbn [fst snd].
        split; [reflexivity |].
        pose proof (land_bounds (hash k) (c - 1) ltac:(lia)) as Hb.
        exists (Z.land (hash k) (c - 1)), (mkBucket k v 0 true).
        rewrite slot_incr_size. unfold slot, store; cbn [table_ BenchRHH_new].
        repeat split; try lia.
        apply list_lookup_insert_eq. rewrite length_replicate. lia.
    + now apply ctor_with_null.
Qed.

Lemma construct_unchecked_witness :
  exists t, construct true 3 = Returned t /\ cap_ t = 3 /\ mask_ t = 2 /\
            length (table_ t) = 3%nat.
Proof.
  destruct (construct_unchecked true 3) as (t & E & _ & Hc & Hk & _ & Hl & _ & _).
  - unfold two64. lia.
  - exists t. repeat split; assumption.
Defined.

(** C10 (size counter).  A fresh table has [size_ = 0] and no occupied
    slot; after any sequence of [insert] and [find] calls [size_] is the
    number of occupied slots; [find] leaves the object as it is; and an
    [insert] adds one to [size_] and to the number of occupied slots
    exactly when it leaves through the placing exit. *)
Theorem size_counter (c : Z) (ops : list op) (k v : Z) :
  0 < c < two64 ->
  size_ (BenchRHH_new c) = 0 /\
  (forall i b, slot (BenchRHH_new c) i = Some b -> occupied b = false) /\
  size_ (run ops (BenchRHH_new c)) = occupied_count (run ops (BenchRHH_new c)) /\
  run_op (run ops (BenchRHH_new c)) (OpFind k) = run ops (BenchRHH_new c) /\
  size_ (insert k v (run ops (BenchRHH_new c))) =
    size_ (run ops (BenchRHH_new c)) +
    (match insert_exit_of k v (run ops (BenchRHH_new c)) with ReturnPlaced => 1 | _ => 0 end) /\
  occupied_count (insert k v (run ops (BenchRHH_new c))) =
    occupied_count (run ops (BenchRHH_new c)) +
    (match insert_exit_of k v (run ops (BenchRHH_new c)) with ReturnPlaced => 1 | _ => 0 end).
Proof.
  intros Hc.
  assert (R : reachable c (run ops (BenchRHH_new c))) by apply reachable_run, reach_new.
  set (t := run ops (BenchRHH_new c)) in *.
  split; [reflexivity |].
  split; [intros i b Hs; apply slot_new in Hs; now subst b |].
  pose proof (reachable_size c t ltac:(lia) R) as Hsz.
  destruct (reachable_length c t R) as [Hl _].
  destruct (insert_size c t k v ltac:(lia) Hl Hsz) as [H1 H2].
  split; [exact Hsz |]. split; [reflexivity |]. split; [exact H2 |].
  rewrite <- H1, H2, Hsz. reflexivity.
Qed.

Lemma size_counter_witness :
  size_ (run [OpInsert 1 10; OpFind 1; OpInsert 1 11; OpInsert 2 20] (BenchRHH_new 4))
  = occupied_count (run [OpInsert 1 10; OpFind 1; OpInsert 1 11; OpInsert 2 20] (BenchRHH_new 4)).
Proof.
  destruct (size_counter 4 [OpInsert 1 10; OpFind 1; OpInsert 1 11; OpInsert 2 20] 0 0)
    as (_ & _ & H & _).
  - unfold two64. lia.
  - exact H.
Defined.


(* ===================================================================== *)
(** ** Further properties: the hash                                       *)
(* ===================================================================== *)

Lemma hash_range (k : Z) : 0 <= hash k < two64.
Proof.
  unfold hash. cbv zeta. apply xorshift33_range.
  apply Z.mod_pos_bound. reflexivity.
Qed.

Lemma hash_inv_range (y : Z) : 0 <= hash_inv y < two64.
Proof.
  unfold hash_inv. apply xorshift33_range.
  apply Z.mod_pos_bound. reflexivity.
Qed.

Lemma hash_inv_hash (k : Z) : 0 <= k < two64 -> hash_inv (hash k) = k.
Proof.
  intros Hk. unfold hash, hash_inv. cbv zeta.
  assert (Hw : 0 <= wrap64 (xorshift33 k * hash_mult) < two64)
    by (apply Z.mod_pos_bound; reflexivity).
  rewrite (xorshift33_involutive _ Hw).
  unfold wrap64 at 1 2. rewrite Zmult_mod_idemp_l.
  rewrite <- Z.mul_assoc, <- Zmult_mod_idemp_r.
  change ((hash_mult * hash_mult_inv) mod two64) with 1.
  rewrite Z.mul_1_r.
  rewrite Z.mod_small by (apply xorshift33_range; exact Hk).
  now apply xorshift33_involutive.
Qed.

(** [hash] permutes the 64-bit values: its result is a 64-bit value, two
    different keys never have the same hash, and every 64-bit value is
    the hash of some key.  Collisions in the table come from the mask
    alone. *)
Theorem hash_bijective (a b : Z) :
  0 <= a < 2 ^ 64 -> 0 <= b < 2 ^ 64 ->
  0 <= hash a < 2 ^ 64 /\
  (hash a = hash b -> a = b) /\
  (exists k, 0 <= k < 2 ^ 64 /\ hash k = b).
Proof.
  intros Ha Hb. split; [apply hash_range |]. split.
  - intros E. rewrite <- (hash_inv_hash a Ha), <- (hash_inv_hash b Hb). now rewrite E.
  - exists (hash_inv b). split; [apply hash_inv_range | now apply hash_hash_inv].
Qed.

Lemma hash_bijective_witness :
  0 <= hash 1 < 2 ^ 64 /\ exists k, 0 <= k < 2 ^ 64 /\ hash k = 2.
Proof.
  destruct (hash_bijective 1 2) as (H1 & _ & H3); [lia | lia |].
  split; [exact H1 | exact H3].
Defined.

(* ===================================================================== *)
(** ** Further properties: array bounds                                   *)
(* ===================================================================== *)

(** The mask covers the array: every index of the form [x & mask_] is a
    valid slot. *)
Definition mask_in_bounds (t : BenchRHH) : Prop :=
  0 <= mask_ t /\ (Z.to_nat (mask_ t) < length (table_ t))%nat.

Lemma reachable_mask_in_bounds (c : Z) (t : BenchRHH) :
  0 < c < two64 -> reachable c t -> mask_in_bounds t.
Proof.
  intros Hc R. destruct (reachable_length c t R) as [Hl _].
  assert (Hm : mask_ t = c - 1).
  { induction R as [| t k v R IH].
    - cbn [mask_ BenchRHH_new]. apply wrap64_small. lia.
    - unfold insert, insert_run.
      destruct (insert_loop_fields (Z.to_nat (cap_ t)) k (mkBucket k v 0 true)
                  (Z.land (hash k) (mask_ t)) t) as (_ & E2 & _).
      cbv zeta in E2. rewrite E2. apply IH.
      now destruct (reachable_length c t R). }
  unfold mask_in_bounds. rewrite Hm, Hl. lia.
Qed.







(** Capacity zero.  The constructor accepts it; [insert] then does
    nothing at all (its loop body never runs), and the first probe of
    [find] reads a slot of an array that has none. *)
Theorem zero_capacity (k v : Z) (fuel : nat) :
  insert k v (BenchRHH_new 0) = BenchRHH_new 0 /\
  insert_exit_of k v (BenchRHH_new 0) = LoopExhausted /\
  find (S fuel) (BenchRHH_new 0) k = FindBadIndex.
Proof. repeat split. Qed.

(** A lookup in a freshly constructed table answers "not found" on its
    first probe, whatever the key. *)
Theorem find_in_fresh_table (c k : Z) (fuel : nat) :
  0 < c < 2 ^ 64 -> find (S fuel) (BenchRHH_new c) k = NotFound.
Proof.
  intros Hc. unfold find. cbn [find_loop].
  assert (MB : mask_in_bounds (BenchRHH_new c))
    by (apply (reachable_mask_in_bounds c); [exact Hc | apply reach_new]).
  destruct MB as [Hm Hl].
  pose proof (land_bounds (hash k) (mask_ (BenchRHH_new c)) Hm) as Hi.
  destruct (lookup_lt_is_Some_2 (table_ (BenchRHH_new c))
              (Z.to_nat (Z.land (hash k) (mask_ (BenchRHH_new c)))) ltac:(lia))
    as [entry Hs].
  rewrite Hs. apply slot_new in Hs. now subst entry.
Qed.

Lemma find_in_fresh_table_witness : find 1 (BenchRHH_new 8) 42 = NotFound.
Proof. apply (find_in_fresh_table 8 42 0). lia. Defined.

(* ===================================================================== *)
(** ** Further properties: what a lookup can report                       *)
(* ===================================================================== *)

Lemma find_loop_found_stored (fuel : nat) : forall t k idx d v,
  find_loop fuel t k idx d = Found v -> stored t k v.
Proof.
  induction fuel as [| fuel IH]; intros t k idx d v; cbn [find_loop];
    [discriminate |].
  destruct (table_ t !! Z.to_nat idx) as [entry |] eqn:Hs; [| discriminate].
  destruct (negb (occupied entry) || (psl entry <? d)) eqn:Estop; [discriminate |].
  apply orb_false_iff in Estop. destruct Estop as [Ho _].
  apply negb_false_iff in Ho.
  destruct (Z.eqb_spec (key entry) k) as [Ek | _]; [| apply IH].
  intros E. inversion E; subst.
  exists (Z.of_nat (Z.to_nat idx)), entry. rewrite slot_of_nat.
  repeat split; auto. lia.
Qed.

Lemma stored_store (t : BenchRHH) (idx : Z) (e c : Bucket) (k v : Z) :
  slot t idx = Some e -> occupied c = true ->
  stored (store t idx c) k v -> stored t k v \/ (k, v) = kv c.
Proof.
  intros Hs Hc St. apply stored_pairs in St.
  destruct (pairs_store t idx e c Hs Hc) as (l1 & l2 & E1 & E2).
  rewrite E2 in St. apply List.in_app_or in St.
  destruct St as [St | [St | St]]; [left | now right | left];
    apply stored_pairs; rewrite E1; apply List.in_or_app; auto.
  right. apply List.in_or_app. now right.
Qed.

(** The loop of [insert] invents nothing: whatever the table holds
    afterwards was there before or is the record being inserted. *)
Lemma insert_loop_stored_sub (n : nat) : forall k curr idx t k' v',
  occupied curr = true ->
  stored (snd (insert_loop n k curr idx t)) k' v' ->
  stored t k' v' \/ (k', v') = kv curr.
Proof.
  induction n as [| n IH]; intros k curr idx t k' v' Hoc; cbn [insert_loop];
    [now left |].
  destruct (table_ t !! Z.to_nat idx) as [entry |] eqn:Hs; [| now left].
  destruct (occupied entry) eqn:Hoe; cbn [negb].
  2:{ cbn [snd]. intros St. apply (stored_store t idx entry curr); auto. }
  destruct (key entry =? k); [now left |].
  destruct (psl entry <? psl curr).
  - intros St. apply IH in St; [| exact Hoe].
    destruct St as [St | E].
    + apply (stored_store t idx entry curr); auto.
    + left. inversion E; subst.
      exists (Z.of_nat (Z.to_nat idx)), entry. rewrite slot_of_nat.
      repeat split; auto. lia.
  - intros St. apply IH in St; auto.
Qed.

Lemma insert_all_stored_sub (kvs : list (Z * Z)) : forall t k v,
  stored (insert_all kvs t) k v -> stored t k v \/ List.In (k, v) kvs.
Proof.
  induction kvs as [| [k0 v0] kvs IH]; intros t k v St; [now left |].
  cbn [insert_all fold_left fst snd] in St. fold (insert_all kvs (insert k0 v0 t)) in St.
  apply IH in St. destruct St as [St | Hin]; [| right; now right].
  apply insert_loop_stored_sub in St; [| reflexivity].
  destruct St as [St | E]; [now left | right; left; now inversion E].
Qed.

Lemma not_stored_new (c k v : Z) : ~ stored (BenchRHH_new c) k v.
Proof.
  intros (i & b & _ & Hs & Ho & _). apply slot_new in Hs. subst b. discriminate.
Qed.

(** No false positives.  For every capacity and every sequence of
    insertions (with duplicates, into a saturated table, anything): when
    [find] reports a key as found with value [v], the pair [(k, v)] was
    passed to some [insert].  A key that was never inserted is never
    reported found. *)
Theorem find_reports_inserted (c : Z) (kvs : list (Z * Z)) (k v : Z) (fuel : nat) :
  find fuel (insert_all kvs (BenchRHH_new c)) k = Found v -> List.In (k, v) kvs.
Proof.
  intros E. apply find_loop_found_stored in E.
  apply insert_all_stored_sub in E. destruct E as [E | E]; [| exact E].
  now apply not_stored_new in E.
Qed.

Lemma find_reports_inserted_witness : List.In (3, 30) [(1, 10); (3, 30)].
Proof.
  apply (find_reports_inserted 4 [(1, 10); (3, 30)] 3 30 4). reflexivity.
Defined.

(** Lookup is exact in every reachable state.  Whatever insertions led to
    the table (duplicates and insertions into a saturated table
    included), [find] with [cap_] probes reports [(k, v)] exactly when an
    occupied slot holds that pair. *)
Theorem find_iff_stored (m : Z) (t : BenchRHH) (k v : Z) (fuel : nat) :
  0 <= m < 64 -> reachable (2 ^ m) t -> (Z.to_nat (cap_ t) <= fuel)%nat ->
  (find fuel t k = Found v <-> stored t k v).
Proof.
  intros Hm R Hf. split.
  - apply find_loop_found_stored.
  - intros (i & b & Hi & Hs & Ho & Hk & Hv).
    pose proof (reachable_wf m t Hm R) as WF.
    pose proof (reachable_robin_hood m t Hm R) as RH.
    rewrite <- Hv. now apply (find_present m t k i b).
Qed.

Lemma find_iff_stored_witness :
  find 2 (insert_all [(0, 100); (2, 200); (3, 300)] (BenchRHH_new (2 ^ 1))) 3 = Found 300
  <-> stored (insert_all [(0, 100); (2, 200); (3, 300)] (BenchRHH_new (2 ^ 1))) 3 300.
Proof.
  apply (find_iff_stored 1).
  - lia.
  - apply reachable_insert_all, reach_new.
  - vm_compute. lia.
Defined.

(** The Robin Hood ordering that the early exit of [find] relies on.  In
    every reachable state, between the ideal slot of a resident and the
    slot where it sits there is no gap and no richer record: the slot at
    offset [j] is occupied by another key whose psl is at least [j] (as a
    16-bit value). *)
Theorem robin_hood_ordering (m : Z) (t : BenchRHH) (i j : Z) (b : Bucket) :
  0 <= m < 64 -> reachable (2 ^ m) t ->
  0 <= i -> slot t i = Some b -> occupied b = true ->
  0 <= j < (i - Z.land (hash (key b)) (mask_ t)) mod cap_ t ->
  exists b', slot t ((Z.land (hash (key b)) (mask_ t) + j) mod cap_ t) = Some b' /\
             occupied b' = true /\ key b' <> key b /\ wrap16 j <= psl b'.
Proof.
  intros Hm R Hi Hs Ho Hj.
  destruct (reachable_robin_hood m t Hm R i b Hi Hs Ho) as [_ P].
  exact (P j Hj).
Qed.

Lemma robin_hood_ordering_witness :
  exists b', slot (insert_all [(0, 100); (3, 300)] (BenchRHH_new (2 ^ 1)))
               ((Z.land (hash 3) 1 + 0) mod 2) = Some b' /\
             occupied b' = true /\ key b' <> 3 /\ wrap16 0 <= psl b'.
Proof.
  apply (robin_hood_ordering 1 (insert_all [(0, 100); (3, 300)] (BenchRHH_new (2 ^ 1)))
           1 0 (mkBucket 3 300 1 true)).
  - lia.
  - apply reachable_insert_all, reach_new.
  - lia.
  - reflexivity.
  - reflexivity.
  - vm_compute. split; [discriminate | reflexivity].
Defined.

(* ===================================================================== *)
(** ** Further properties: one insertion                                  *)
(* ===================================================================== *)

Lemma room_count_lt (t : BenchRHH) :
  has_room t -> occupied_count t < Z.of_nat (length (table_ t)).
Proof.
  intros (i & e & Hi & Hs & Ho). unfold slot in Hs. unfold occupied_count.
  rewrite <- (take_drop_middle (table_ t) (Z.to_nat i) e Hs).
  rewrite List.filter_app. cbn [List.filter]. rewrite Ho.
  rewrite !length_app. cbn [length].
  pose proof (List.filter_length_le occupied (take (Z.to_nat i) (table_ t))).
  pose proof (List.filter_length_le occupied (drop (S (Z.to_nat i)) (table_ t))).
  lia.
Qed.

(** What one [insert] stores when there is room. *)
Lemma insert_stored_iff (m : Z) (t : BenchRHH) (k v k' v' : Z) :
  well_formed m t -> robin_hood t -> has_room t ->
  (stored (insert k v t) k' v' <->
   stored t k' v' \/ (absent t k /\ k' = k /\ v' = v)).
Proof.
  intros WF RH Room.
  destruct (present_or_absent t k) as [P | A].
  - pose proof P as (v0 & i & b & Hi & Hs & Ho & Hk & _).
    unfold insert. rewrite (insert_present m t k i b WF RH Hi Hs Ho Hk v). cbn [snd].
    split; [now left |]. intros [St | (A & _)]; [exact St |].
    now apply absent_not_present in A.
  - destruct (insert_absent_room m t k WF A v Room) as [_ Pm].
    rewrite !stored_pairs. split.
    + intros Hin. apply (Permutation_in _ Pm) in Hin.
      destruct Hin as [E | Hin]; [right | now left].
      inversion E; subst. auto.
    + intros [Hin | (_ & -> & ->)];
        apply (Permutation_in _ (symmetry Pm)); [now right | now left].
Qed.

(** One insertion into a table with room, in full.  In every reachable
    state with an empty slot, the pairs stored after [insert(k, v)] are
    the pairs stored before, plus [(k, v)] when [k] was not stored:
    nothing is lost, moved pairs keep their values, and a stored key
    keeps its first value. *)
Theorem insert_with_room (m : Z) (t : BenchRHH) (k v k' v' : Z) :
  0 <= m < 64 -> reachable (2 ^ m) t -> size_ t < cap_ t ->
  (stored (insert k v t) k' v' <->
   stored t k' v' \/ (absent t k /\ k' = k /\ v' = v)).
Proof.
  intros Hm R Hsz.
  pose proof (reachable_wf m t Hm R) as WF.
  apply (insert_stored_iff m); auto.
  - now apply (reachable_robin_hood m).
  - apply room_of_count.
    pose proof (pow2_lt_two64 m Hm). pose proof (pow2_pos m ltac:(lia)).
    rewrite <- (reachable_size (2 ^ m) t ltac:(lia) R).
    destruct WF as (_ & Hc & _ & ->). lia.
Qed.

Lemma insert_with_room_witness :
  stored (insert 3 300 (insert 0 100 (BenchRHH_new (2 ^ 1)))) 0 100 <->
  stored (insert 0 100 (BenchRHH_new (2 ^ 1))) 0 100 \/
  (absent (insert 0 100 (BenchRHH_new (2 ^ 1))) 3 /\ 0 = 3 /\ 100 = 300).
Proof.
  apply (insert_with_room 1).
  - lia.
  - apply reach_insert, reach_new.
  - vm_compute. reflexivity.
Defined.

Lemma insert_loop_keeps_occupied (n : nat) : forall k curr idx t (i : nat) b,
  occupied curr = true -> table_ t !! i = Some b -> occupied b = true ->
  exists b', table_ (snd (insert_loop n k curr idx t)) !! i = Some b' /\
             occupied b' = true.
Proof.
  induction n as [| n IH]; intros k curr idx t i b Hoc Hs Ho; cbn [insert_loop];
    [eauto |].
  assert (Hst : exists b', table_ (store t idx curr) !! i = Some b' /\ occupied b' = true).
  { cbn [store table_].
    destruct (Nat.eq_dec (Z.to_nat idx) i) as [<- | NE].
    - exists curr. split; [| exact Hoc].
      apply list_lookup_insert_eq. eapply lookup_lt_Some; eauto.
    - exists b. now rewrite list_lookup_insert_ne. }
  destruct (table_ t !! Z.to_nat idx) as [entry |] eqn:Hse; [| eauto].
  destruct (occupied entry) eqn:Hoe; cbn [negb]; [| exact Hst].
  destruct (key entry =? k); [eauto |].
  destruct (psl entry <? psl curr).
  - destruct Hst as (b' & Hb' & Ho'). now apply (IH _ _ _ _ i b').
  - now apply (IH _ _ _ _ i b).
Qed.

(** [insert] never frees a slot and never lowers the counter.  For every
    non-zero capacity and reachable state: a slot that is occupied stays
    occupied, [size_] grows by at most one and stays within the
    capacity. *)
Theorem insert_never_frees (c : Z) (t : BenchRHH) (k v : Z) :
  0 < c < 2 ^ 64 -> reachable c t ->
  (forall i b, 0 <= i -> slot t i = Some b -> occupied b = true ->
     exists b', slot (insert k v t) i = Some b' /\ occupied b' = true) /\
  size_ t <= size_ (insert k v t) <= size_ t + 1 /\
  size_ (insert k v t) <= c.
Proof.
  intros Hc R. split.
  - intros i b _ Hs Ho. unfold slot in *.
    now apply (insert_loop_keeps_occupied _ _ _ _ _ _ b).
  - destruct (reachable_length c t R) as [Hl _].
    pose proof (reachable_size c t ltac:(unfold two64; lia) R) as Hsz.
    destruct (insert_size c t k v ltac:(unfold two64; lia) Hl Hsz) as [H1 H2].
    destruct (reachable_length c (insert k v t) (reach_insert c t k v R)) as [Hl' _].
    pose proof (occupied_count_bound (insert k v t)) as B.
    rewrite Hl' in B.
    destruct (insert_exit_of k v t); lia.
Qed.

Lemma insert_never_frees_witness :
  size_ (insert 1 10 (BenchRHH_new 3)) <= size_ (insert 2 20 (insert 1 10 (BenchRHH_new 3)))
  <= size_ (insert 1 10 (BenchRHH_new 3)) + 1.
Proof.
  destruct (insert_never_frees 3 (insert 1 10 (BenchRHH_new 3)) 2 20) as (_ & H & _).
  - lia.
  - apply reach_insert, reach_new.
  - exact H.
Defined.

(** Filling the table completely.  Inserting exactly [2^m] distinct keys
    into a fresh table of capacity [2^m] stores every one of them: the
    table ends saturated with [size_ = cap_], and each key is found with
    its value. *)
Theorem fill_to_capacity (m : Z) (kvs : list (Z * Z)) (k v : Z) (fuel : nat) :
  0 <= m < 64 ->
  List.NoDup (List.map fst kvs) -> Z.of_nat (length kvs) = 2 ^ m ->
  List.In (k, v) kvs -> (Z.to_nat (2 ^ m) <= fuel)%nat ->
  size_ (insert_all kvs (BenchRHH_new (2 ^ m))) = 2 ^ m /\
  saturated (insert_all kvs (BenchRHH_new (2 ^ m))) /\
  find fuel (insert_all kvs (BenchRHH_new (2 ^ m))) k = Found v.
Proof.
  intros Hm ND Hlen Hin Hf.
  destruct (fresh_insert_all m kvs Hm ND ltac:(lia)) as (R & WF & RH & P).
  set (t := insert_all kvs (BenchRHH_new (2 ^ m))) in *.
  pose proof (pow2_lt_two64 m Hm). pose proof (pow2_pos m ltac:(lia)).
  pose proof (reachable_size (2 ^ m) t ltac:(lia) R) as Hsz.
  assert (Hcnt : occupied_count t = 2 ^ m).
  { rewrite occupied_count_pairs, (Permutation_length P). exact Hlen. }
  split; [lia |]. split.
  - destruct (saturated_or_room t) as [S | Room]; [exact S |].
    apply room_count_lt in Room.
    destruct WF as (_ & _ & _ & Hl). rewrite Hl in Room. lia.
  - assert (St : stored t k v).
    { apply stored_pairs. apply (Permutation_in _ (symmetry P)). exact Hin. }
    destruct St as (i & b & Hi & Hs & Ho & Hk & Hv).
    rewrite <- Hv. apply (find_present m t k i b); auto.
    destruct WF as (_ & -> & _). exact Hf.
Qed.

Lemma fill_to_capacity_witness :
  saturated (insert_all [(0, 100); (3, 300)] (BenchRHH_new (2 ^ 1))) /\
  find 2 (insert_all [(0, 100); (3, 300)] (BenchRHH_new (2 ^ 1))) 3 = Found 300.
Proof.
  destruct (fill_to_capacity 1 [(0, 100); (3, 300)] 3 300 2) as (_ & H1 & H2).
  - lia.
  - repeat constructor; simpl; intuition discriminate.
  - reflexivity.
  - simpl. auto.
  - vm_compute. lia.
  - split; assumption.
Defined.

(* ===================================================================== *)
(** ** Further properties: sequences with repeated keys                   *)
(* ===================================================================== *)

(** The value of the first pair with key [k] in a sequence. *)
Fixpoint first_value (k : Z) (kvs : list (Z * Z)) : option Z :=
  match kvs with
  | [] => None
  | (k0, v0) :: rest => if k0 =? k then Some v0 else first_value k rest
  end.

Lemma insert_count_le (t : BenchRHH) (k v : Z) :
  occupied_count (insert k v t) <= occupied_count t + 1 /\
  cap_ (insert k v t) = cap_ t.
Proof.
  pose proof (insert_loop_effect (Z.to_nat (cap_ t)) k (mkBucket k v 0 true)
                (Z.land (hash k) (mask_ t)) t eq_refl) as E.
  cbv zeta in E. fold (insert_run k v t) in E. fold (insert k v t) in E.
  split.
  - destruct (fst (insert_run k v t)); lia.
  - apply (insert_loop_fields (Z.to_nat (cap_ t))).
Qed.

Lemma insert_all_count_le (kvs : list (Z * Z)) : forall t,
  occupied_count (insert_all kvs t) <= occupied_count t + Z.of_nat (length kvs).
Proof.
  induction kvs as [| [k v] kvs IH]; intros t; [simpl; lia |].
  cbn [insert_all fold_left fst snd]. fold (insert_all kvs (insert k v t)).
  specialize (IH (insert k v t)).
  pose proof (insert_count_le t k v). cbn [length]. lia.
Qed.

Lemma wf_length_cap (m : Z) (t : BenchRHH) :
  well_formed m t -> Z.of_nat (length (table_ t)) = cap_ t.
Proof.
  intros (Hm & Hc & _ & Hl). rewrite Hl, Hc.
  pose proof (pow2_pos m ltac:(lia)). lia.
Qed.

(** While there is room, a sequence of insertions stores, besides what
    the table held, the first value given for each new key. *)
Lemma insert_all_stored_iff (m : Z) (kvs : list (Z * Z)) : forall t k v,
  well_formed m t -> robin_hood t ->
  occupied_count t + Z.of_nat (length kvs) <= cap_ t ->
  (stored (insert_all kvs t) k v <->
   stored t k v \/ (absent t k /\ first_value k kvs = Some v)).
Proof.
  induction kvs as [| [k0 v0] kvs IH]; intros t k v WF RH Hcnt.
  - simpl. split; [now left |]. intros [H | (_ & H)]; [exact H | discriminate].
  - cbn [insert_all fold_left fst snd]. fold (insert_all kvs (insert k0 v0 t)).
    cbn [length] in Hcnt.
    assert (Room : has_room t).
    { apply room_of_count. rewrite (wf_length_cap m t WF). lia. }
    destruct (insert_count_le t k0 v0) as [Hc1 Hc2].
    rewrite IH;
      [| now apply insert_wf | now apply (insert_robin_hood m) | rewrite Hc2; lia].
    cbn [first_value].
    assert (Habs : absent (insert k0 v0 t) k <-> absent t k /\ k0 <> k).
    { rewrite !absent_not_stored. split.
      - intros N. split.
        + intros v' St. apply (N v').
          apply (insert_stored_iff m); auto.
        + intros ->.
          destruct (present_or_absent t k) as [[v' St] | A].
          * apply (N v'). apply (insert_stored_iff m); auto.
          * apply (N v0). apply (insert_stored_iff m); auto.
      - intros [N Hne] v' St. apply (insert_stored_iff m) in St; auto.
        destruct St as [St | (_ & E & _)]; [now apply (N v') | congruence]. }
    rewrite Habs, (insert_stored_iff m) by auto.
    destruct (Z.eqb_spec k0 k) as [-> | Hne].
    + split.
      * intros [[St | (A & _ & ->)] | ((_ & Hn) & _)]; auto. contradiction.
      * intros [St | (A & E)]; [now left; left |].
        inversion E; subst. left. right. auto.
    + split.
      * intros [[St | (_ & E & _)] | ((A & _) & E)]; auto. congruence.
      * intros [St | (A & E)]; [now left; left | right; auto].
Qed.

(** The pairs stored after a sequence of insertions that leaves room in a
    fresh table. *)
Lemma fresh_stored_iff (m : Z) (kvs : list (Z * Z)) (k v : Z) :
  0 <= m < 64 -> Z.of_nat (length kvs) < 2 ^ m ->
  (stored (insert_all kvs (BenchRHH_new (2 ^ m))) k v <-> first_value k kvs = Some v).
Proof.
  intros Hm Hlen. rewrite (insert_all_stored_iff m).
  - split.
    + intros [St | (_ & E)]; [now apply not_stored_new in St | exact E].
    + intros E. right. split; [| exact E].
      apply absent_not_stored. intros v'. apply not_stored_new.
  - now apply wf_new.
  - apply robin_hood_new.
  - rewrite occupied_count_new. cbn [cap_ BenchRHH_new]. lia.
Qed.

Lemma fresh_has_room (m : Z) (kvs : list (Z * Z)) :
  0 <= m < 64 -> Z.of_nat (length kvs) < 2 ^ m ->
  has_room (insert_all kvs (BenchRHH_new (2 ^ m))).
Proof.
  intros Hm Hlen.
  assert (R : reachable (2 ^ m) (insert_all kvs (BenchRHH_new (2 ^ m))))
    by apply reachable_insert_all, reach_new.
  pose proof (reachable_wf m _ Hm R) as WF.
  pose proof (insert_all_count_le kvs (BenchRHH_new (2 ^ m))) as Hcnt.
  rewrite occupied_count_new in Hcnt.
  apply room_of_count. rewrite (wf_length_cap m _ WF).
  destruct WF as (_ & -> & _). lia.
Qed.

(** First write wins, for any sequence.  After inserting a sequence of
    fewer than [2^m] pairs, keys repeated or not, into a fresh table of
    capacity [2^m], [find] answers as a search for the first pair with
    that key in the sequence would: its value if there is one, "not
    found" otherwise. *)
Theorem first_write_wins (m : Z) (kvs : list (Z * Z)) (k : Z) (fuel : nat) :
  0 <= m < 64 -> Z.of_nat (length kvs) < 2 ^ m ->
  (Z.to_nat (2 ^ m) <= fuel)%nat ->
  find fuel (insert_all kvs (BenchRHH_new (2 ^ m))) k =
  match first_value k kvs with
  | Some v => Found v
  | None => NotFound
  end.
Proof.
  intros Hm Hlen Hf.
  assert (R : reachable (2 ^ m) (insert_all kvs (BenchRHH_new (2 ^ m))))
    by apply reachable_insert_all, reach_new.
  pose proof (reachable_wf m _ Hm R) as WF.
  pose proof (reachable_robin_hood m _ Hm R) as RH.
  pose proof (fresh_has_room m kvs Hm Hlen) as Room.
  pose proof (fun v => fresh_stored_iff m kvs k v Hm Hlen) as Hst.
  set (t := insert_all kvs (BenchRHH_new (2 ^ m))) in *.
  assert (Hcap : cap_ t = 2 ^ m) by (destruct WF as (_ & ? & _); assumption).
  destruct (first_value k kvs) as [v |] eqn:Efv.
  - destruct (proj2 (Hst v) eq_refl) as (i & b & Hi & Hs & Ho & Hk & Hv).
    rewrite <- Hv. apply (find_present m t k i b); auto. now rewrite Hcap.
  - apply (find_absent_room m); auto.
    + apply absent_not_stored. intros v St. apply Hst in St. discriminate.
    + now rewrite Hcap.
Qed.

Lemma first_write_wins_witness :
  find 4 (insert_all [(1, 10); (2, 20); (1, 11)] (BenchRHH_new (2 ^ 2))) 1 = Found 10.
Proof.
  apply (first_write_wins 2 [(1, 10); (2, 20); (1, 11)] 1 4).
  - lia.
  - simpl. lia.
  - vm_compute. lia.
Defined.

(* ===================================================================== *)
(** ** Further properties: the two maps of the benchmark                  *)
(* ===================================================================== *)

(** [const size_t CAP_POW2 = 1 << 21;] *)
Definition CAP_POW2 : Z := Z.shiftl 1 21.

(** The loading phase of [run_test_rhh]:
    [BenchRHH rhh(CAP_POW2); for (auto k : keys) rhh.insert(k, k);] *)
Definition rhh_load (keys : list Z) : BenchRHH :=
  fold_left (fun rhh k => insert k k rhh) keys (BenchRHH_new CAP_POW2).

(** The loading phase of [run_test_std], the [std::unordered_map] as a
    finite map: [for (auto k : keys) m[k] = k;] *)
Definition std_load (keys : list Z) : gmap Z Z :=
  fold_left (fun acc k => <[k := k]> acc) keys ∅.

Lemma rhh_load_insert_all (keys : list Z) :
  rhh_load keys = insert_all (List.map (fun k => (k, k)) keys) (BenchRHH_new CAP_POW2).
Proof.
  unfold rhh_load, insert_all. generalize (BenchRHH_new CAP_POW2).
  induction keys as [| k keys IH]; intros t; [reflexivity |].
  simpl. apply IH.
Qed.

Lemma first_value_diag (q : Z) (keys : list Z) :
  first_value q (List.map (fun k => (k, k)) keys) =
  if decide (q ∈ keys) then Some q else None.
Proof.
  induction keys as [| k keys IH]; [reflexivity |].
  cbn [List.map first_value]. destruct (Z.eqb_spec k q) as [-> | Hne].
  - rewrite decide_True by apply list_elem_of_here. reflexivity.
  - rewrite IH.
    destruct (decide (q ∈ keys)) as [Hin | Hn].
    + rewrite decide_True by (now apply list_elem_of_further). reflexivity.
    + rewrite decide_False; [reflexivity |].
      intros Hin. apply elem_of_cons in Hin. destruct Hin; [congruence | contradiction].
Qed.

Lemma std_load_lookup (keys : list Z) (q : Z) : forall acc : gmap Z Z,
  fold_left (fun acc k => <[k := k]> acc) keys acc !! q =
  if decide (q ∈ keys) then Some q else acc !! q.
Proof.
  induction keys as [| k keys IH]; intros acc; [reflexivity |].
  cbn [fold_left]. rewrite IH.
  destruct (decide (q ∈ keys)) as [Hin | Hn].
  - rewrite decide_True by (now apply list_elem_of_further). reflexivity.
  - destruct (decide (q = k)) as [-> | Hne].
    + rewrite decide_True by apply list_elem_of_here. apply lookup_insert_eq.
    + rewrite decide_False.
      * apply lookup_insert_ne. congruence.
      * intros Hin. apply elem_of_cons in Hin. destruct Hin; contradiction.
Qed.

(** The benchmark compares like with like.  For any load set of fewer
    than [CAP_POW2] keys (repeats allowed) and any query, the Robin Hood
    table and the [std::unordered_map] loaded with the same keys give the
    same answer: found with value [q] when [q] is in the load set, not
    found otherwise. *)
Theorem benchmark_maps_agree (keys : list Z) (q : Z) (fuel : nat) :
  Z.of_nat (length keys) < CAP_POW2 -> (Z.to_nat CAP_POW2 <= fuel)%nat ->
  find fuel (rhh_load keys) q =
    match std_load keys !! q with Some v => Found v | None => NotFound end /\
  (List.In q keys -> find fuel (rhh_load keys) q = Found q) /\
  (~ List.In q keys -> find fuel (rhh_load keys) q = NotFound).
Proof.
  intros Hlen Hf.
  assert (Hm : 0 <= 21 < 64) by lia.
  assert (Hlen' : Z.of_nat (length (List.map (fun k => (k, k)) keys)) < 2 ^ 21)
    by (rewrite List.length_map; exact Hlen).
  assert (E : find fuel (rhh_load keys) q =
              if decide (q ∈ keys) then Found q else NotFound).
  { rewrite rhh_load_insert_all. change CAP_POW2 with (2 ^ 21) in *.
    assert (R : reachable (2 ^ 21)
                  (insert_all (List.map (fun k => (k, k)) keys) (BenchRHH_new (2 ^ 21))))
      by apply reachable_insert_all, reach_new.
    pose proof (reachable_wf 21 _ Hm R) as WF.
    pose proof (reachable_robin_hood 21 _ Hm R) as RH.
    pose proof (fresh_has_room 21 _ Hm Hlen') as Room.
    pose proof (fun v => fresh_stored_iff 21 _ q v Hm Hlen') as Hst.
    assert (Hcap : cap_ (insert_all (List.map (fun k => (k, k)) keys)
                           (BenchRHH_new (2 ^ 21))) = 2 ^ 21)
      by (destruct WF as (_ & ? & _); assumption).
    rewrite first_value_diag in Hst.
    destruct (decide (q ∈ keys)) as [Hin | Hn].
    - destruct (proj2 (Hst q) eq_refl) as (i & b & Hi & Hs & Ho & Hk & Hv).
      pose proof (find_present 21 _ q i b WF RH Hi Hs Ho Hk fuel) as F.
      rewrite Hv in F. apply F. now rewrite Hcap.
    - apply (find_absent_room 21); auto.
      + apply absent_not_stored. intros v St. apply Hst in St. discriminate.
      + now rewrite Hcap. }
  split; [| split].
  - rewrite E. unfold std_load. rewrite std_load_lookup, lookup_empty.
    now destruct (decide (q ∈ keys)).
  - intros Hin. rewrite E. apply list_elem_of_In in Hin. now rewrite decide_True.
  - intros Hn. rewrite E. rewrite decide_False; [reflexivity |].
    intros Hin. apply Hn. now apply list_elem_of_In.
Qed.

Lemma benchmark_maps_agree_witness :
  find (Z.to_nat CAP_POW2) (rhh_load [5; 6; 5]) 6 = Found 6.
Proof.
  destruct (benchmark_maps_agree [5; 6; 5] 6 (Z.to_nat CAP_POW2)) as (_ & H & _).
  - reflexivity.
  - apply le_n.
  - apply H. right. now left.
Defined.

(* ===================================================================== *)
(** ** Further properties: the cost of a hit                              *)
(* ===================================================================== *)

Section HitCost.
Variables (m : Z) (t : BenchRHH) (i : Z) (b : Bucket).
Hypothesis WF : well_formed m t.
Hypothesis RH : robin_hood t.
Hypothesis Hi : 0 <= i.
Hypothesis Hs : slot t i = Some b.
Hypothesis Ho : occupied b = true.

(** Before the displacement is covered, the loop of [find] is still
    walking. *)
Lemma find_loop_still_walking (fuel : nat) : forall (j : Z),
  0 <= j -> j + Z.of_nat fuel <= displacement t i (key b) ->
  find_loop fuel t (key b) ((ideal t (key b) + j) mod cap_ t) (wrap16 j) = OutOfFuel.
Proof.
  pose proof (wf_cap_pos m t WF) as Hc.
  destruct (RH i b Hi Hs Ho) as [_ Hpath].
  induction fuel as [| fuel IH]; intros j Hj Hsum; [reflexivity |].
  cbn [find_loop].
  destruct (Hpath j ltac:(lia)) as (e & Hse & Hoe & Hne & Hw).
  pose proof (Z.mod_pos_bound (ideal t (key b) + j) (cap_ t) Hc) as Hrange.
  unfold slot in Hse. rewrite Hse, Hoe. cbn [negb orb].
  destruct (Z.ltb_spec (psl e) (wrap16 j)) as [? | _]; [lia |].
  destruct (Z.eqb_spec (key e) (key b)) as [? | _]; [contradiction |].
  rewrite (wf_next m t WF) by assumption.
  rewrite walk_next, wrap16_succ. apply IH; lia.
Qed.
End HitCost.

(** A hit costs exactly displacement + 1 probes.  In every reachable
    state, [find] of a stored key has not returned after as many probes
    as the key is displaced from its ideal slot, and returns its value
    on the next one. *)
Theorem hit_cost (m : Z) (t : BenchRHH) (i : Z) (b : Bucket) :
  0 <= m < 64 -> reachable (2 ^ m) t ->
  0 <= i -> slot t i = Some b -> occupied b = true ->
  find (Z.to_nat ((i - Z.land (hash (key b)) (mask_ t)) mod cap_ t)) t (key b) = OutOfFuel /\
  find (S (Z.to_nat ((i - Z.land (hash (key b)) (mask_ t)) mod cap_ t))) t (key b)
    = Found (value b).
Proof.
  intros Hm R Hi Hs Ho.
  pose proof (reachable_wf m t Hm R) as WF.
  pose proof (reachable_robin_hood m t Hm R) as RH.
  pose proof (wf_cap_pos m t WF) as Hc.
  pose proof (wf_ideal_range m t WF (key b)) as Hid.
  fold (ideal t (key b)). fold (displacement t i (key b)).
  pose proof (disp_range (cap_ t) i (ideal t (key b)) Hc) as Rd.
  fold (displacement t i (key b)) in Rd.
  split.
  - unfold find. fold (ideal t (key b)).
    pose proof (find_loop_still_walking m t i b WF RH Hi Hs Ho
                  (Z.to_nat (displacement t i (key b))) 0) as H.
    rewrite Z.add_0_r, (Z.mod_small (ideal t (key b))) in H by assumption.
    change (wrap16 0) with 0 in H. apply H; lia.
  - unfold find. fold (ideal t (key b)).
    pose proof (find_loop_to_key m t (key b) i b WF RH Hi Hs Ho eq_refl
                  (Z.to_nat (displacement t i (key b))) 0
                  (S (Z.to_nat (displacement t i (key b))))) as H.
    rewrite Z.add_0_r, (Z.mod_small (ideal t (key b))) in H by assumption.
    change (wrap16 0) with 0 in H. apply H; lia.
Qed.

Lemma hit_cost_witness :
  find 1 (insert_all [(0, 100); (3, 300)] (BenchRHH_new (2 ^ 1))) 3 = OutOfFuel /\
  find 2 (insert_all [(0, 100); (3, 300)] (BenchRHH_new (2 ^ 1))) 3 = Found 300.
Proof.
  apply (hit_cost 1 (insert_all [(0, 100); (3, 300)] (BenchRHH_new (2 ^ 1)))
           1 (mkBucket 3 300 1 true)).
  - lia.
  - apply reachable_insert_all, reach_new.
  - lia.
  - reflexivity.
  - reflexivity.
Defined.

(* ===================================================================== *)
(** ** Further properties: how insertions compose                         *)
(* ===================================================================== *)

(** Inserting the same key again changes nothing.  In every reachable
    state with an empty slot, a second [insert] of a key, with any value,
    leaves the object exactly as the first one left it. *)
Theorem insert_idempotent (m : Z) (t : BenchRHH) (k v v' : Z) :
  0 <= m < 64 -> reachable (2 ^ m) t -> size_ t < cap_ t ->
  insert k v' (insert k v t) = insert k v t.
Proof.
  intros Hm R Hsz.
  pose proof (reachable_wf m t Hm R) as WF.
  pose proof (reachable_robin_hood m t Hm R) as RH.
  assert (Room : has_room t).
  { apply room_of_count.
    pose proof (pow2_lt_two64 m Hm). pose proof (pow2_pos m ltac:(lia)).
    rewrite <- (reachable_size (2 ^ m) t ltac:(lia) R).
    rewrite (wf_length_cap m t WF). exact Hsz. }
  assert (P : present (insert k v t) k).
  { destruct (present_or_absent t k) as [[v0 St] | A].
    - exists v0. apply (insert_stored_iff m); auto.
    - exists v. apply (insert_stored_iff m); auto. }
  destruct P as (v1 & i & b & Hi & Hs & Ho & Hk & _).
  unfold insert at 1.
  rewrite (insert_present m (insert k v t) k i b); auto.
  - now apply insert_wf.
  - now apply (insert_robin_hood m).
Qed.

Lemma insert_idempotent_witness :
  insert 7 71 (insert 7 70 (BenchRHH_new (2 ^ 2))) = insert 7 70 (BenchRHH_new (2 ^ 2)).
Proof.
  apply (insert_idempotent 2).
  - lia.
  - apply reach_new.
  - reflexivity.
Defined.

Lemma first_value_in (k v : Z) (kvs : list (Z * Z)) :
  List.NoDup (List.map fst kvs) ->
  (first_value k kvs = Some v <-> List.In (k, v) kvs).
Proof.
  induction kvs as [| [k0 v0] kvs IH]; intros ND.
  - simpl. split; [discriminate | contradiction].
  - cbn [List.map fst] in ND. inversion ND as [| ? ? Hnotin ND']; subst.
    cbn [first_value]. destruct (Z.eqb_spec k0 k) as [-> | Hne].
    + split.
      * intros E. inversion E. now left.
      * intros [E | Hin]; [now inversion E |].
        exfalso. apply Hnotin. change k with (fst (k, v)). now apply List.in_map.
    + rewrite (IH ND'). split; [now right |].
      intros [E | Hin]; [inversion E; congruence | exact Hin].
Qed.

(** The order of insertion does not show in the answers.  Two fresh
    tables of capacity [2^m] loaded with the same fewer than [2^m] pairs
    of distinct keys, in different orders, answer every [find] alike,
    although their slots may differ. *)
Theorem insertion_order_irrelevant (m : Z) (kvs kvs' : list (Z * Z)) (q : Z) (fuel : nat) :
  0 <= m < 64 -> List.NoDup (List.map fst kvs) -> kvs ≡ₚ kvs' ->
  Z.of_nat (length kvs) < 2 ^ m -> (Z.to_nat (2 ^ m) <= fuel)%nat ->
  find fuel (insert_all kvs (BenchRHH_new (2 ^ m))) q =
  find fuel (insert_all kvs' (BenchRHH_new (2 ^ m))) q.
Proof.
  intros Hm ND P Hlen Hf.
  assert (ND' : List.NoDup (List.map fst kvs')).
  { eapply Permutation_NoDup; [| exact ND]. now apply Permutation_map. }
  assert (Hlen' : Z.of_nat (length kvs') < 2 ^ m)
    by (rewrite <- (Permutation_length P); exact Hlen).
  assert (E : first_value q kvs = first_value q kvs').
  { destruct (first_value q kvs) as [v |] eqn:E1.
    - symmetry. apply (first_value_in q v kvs' ND').
      apply (Permutation_in _ P). now apply (first_value_in q v kvs ND).
    - destruct (first_value q kvs') as [v' |] eqn:E2; [| reflexivity].
      apply (first_value_in q v' kvs' ND') in E2.
      apply (Permutation_in _ (symmetry P)) in E2.
      apply (first_value_in q v' kvs ND) in E2. congruence. }
  assert (F : forall l, Z.of_nat (length l) < 2 ^ m ->
            find fuel (insert_all l (BenchRHH_new (2 ^ m))) q =
            match first_value q l with Some v => Found v | None => NotFound end).
  { intros l Hl.
    assert (R : reachable (2 ^ m) (insert_all l (BenchRHH_new (2 ^ m))))
      by apply reachable_insert_all, reach_new.
    pose proof (reachable_wf m _ Hm R) as WF.
    pose proof (reachable_robin_hood m _ Hm R) as RH.
    pose proof (fresh_has_room m l Hm Hl) as Room.
    pose proof (fun v => fresh_stored_iff m l q v Hm Hl) as Hst.
    assert (Hcap : cap_ (insert_all l (BenchRHH_new (2 ^ m))) = 2 ^ m)
      by (destruct WF as (_ & ? & _); assumption).
    destruct (first_value q l) as [v |].
    - destruct (proj2 (Hst v) eq_refl) as (i & b & Hi & Hs & Ho & Hk & Hv).
      rewrite <- Hv. apply (find_present m _ q i b); auto. now rewrite Hcap.
    - apply (find_absent_room m); auto.
      + apply absent_not_stored. intros v St. apply Hst in St. discriminate.
      + now rewrite Hcap. }
  rewrite (F kvs Hlen), (F kvs' Hlen'), E. reflexivity.
Qed.

Lemma insertion_order_irrelevant_witness :
  find 4 (insert_all [(0, 100); (7, 700)] (BenchRHH_new (2 ^ 2))) 7 =
  find 4 (insert_all [(7, 700); (0, 100)] (BenchRHH_new (2 ^ 2))) 7.
Proof.
  apply (insertion_order_irrelevant 2).
  - lia.
  - repeat constructor; simpl; intuition discriminate.
  - apply perm_swap.
  - simpl. lia.
  - vm_compute. lia.
Defined.

(** The bookkeeping of the loop of [insert]: on the placing exit the
    table holds one record more, the carried one; on every other way
    out, one record of those in play has been let go. *)
Lemma insert_loop_conserves (n : nat) : forall k curr idx t,
  occupied curr = true ->
  match fst (insert_loop n k curr idx t) with
  | ReturnPlaced => pairs (snd (insert_loop n k curr idx t)) ≡ₚ kv curr :: pairs t
  | _ => exists d, kv curr :: pairs t ≡ₚ d :: pairs (snd (insert_loop n k curr idx t))
  end.
Proof.
  induction n as [| n IH]; intros k curr idx t Hoc; cbn [insert_loop].
  - cbn [fst snd]. now exists (kv curr).
  - destruct (table_ t !! Z.to_nat idx) as [entry |] eqn:Hs;
      [| cbn [fst snd]; now exists (kv curr)].
    destruct (pairs_store t idx entry curr Hs Hoc) as (l1 & l2 & E1 & E2).
    destruct (occupied entry) eqn:Hoe; cbn [negb].
    2:{ cbn [fst snd].
        change (pairs (incr_size (store t idx curr))) with (pairs (store t idx curr)).
        rewrite E1, E2. simpl. symmetry. apply Permutation_middle. }
    destruct (key entry =? k); [cbn [fst snd]; now exists (kv curr) |].
    destruct (psl entry <? psl curr).
    + specialize (IH k (bump entry) (next_idx idx (mask_ t)) (store t idx curr) Hoe).
      change (kv (bump entry)) with (kv entry) in IH.
      assert (Esw : kv curr :: pairs t ≡ₚ kv entry :: pairs (store t idx curr)).
      { rewrite E1, E2. simpl. rewrite <- !Permutation_middle. apply perm_swap. }
      destruct (fst (insert_loop n k (bump entry) (next_idx idx (mask_ t))
                       (store t idx curr)));
        try (destruct IH as [d Hd]; exists d; now rewrite Esw).
      now rewrite IH, Esw.
    + specialize (IH k (bump curr) (next_idx idx (mask_ t)) t Hoc).
      exact IH.
Qed.

(** An [insert] lets go of at most one record.  For every table and every
    call: either the new pair has been added to the stored pairs, or the
    stored pairs together with the new one are, up to order, the pairs
    stored afterwards and exactly one discarded pair (the new pair itself
    when its key was already stored). *)
Theorem insert_drops_at_most_one (t : BenchRHH) (k v : Z) :
  pairs (insert k v t) ≡ₚ (k, v) :: pairs t \/
  exists d, (k, v) :: pairs t ≡ₚ d :: pairs (insert k v t).
Proof.
  pose proof (insert_loop_conserves (Z.to_nat (cap_ t)) k (mkBucket k v 0 true)
                (Z.land (hash k) (mask_ t)) t eq_refl) as H.
  fold (insert_run k v t) in H. fold (insert k v t) in H.
  change (kv (mkBucket k v 0 true)) with (k, v) in H.
  destruct (fst (insert_run k v t)); auto.
Qed.
